(** * A shallow embedding of the Sudoku solver of [src/main.py]

    The solver works on a Python list of nine lists of nine integers, which
    it mutates in place.  The embedding keeps that shape: a grid is a
    [list (list Z)], a Python [set] of integers is a [gset Z], reads and
    writes by index go through an outcome monad in which an [IndexError]
    is a value, and the two unbounded control structures of the program
    (the [while True] loop of [solve] and the recursion of
    [try_combinations]) take a fuel argument. *)

From Stdlib Require Import ZArith Lia Ascii String DecimalString.
From stdpp Require Import base decidable option list numbers relations sorting gmap.

Local Open Scope Z_scope.
Set Warnings "-clear-no-such-hyp".

(** ** Outcomes of running a piece of the program *)

Module Outcome.

Inductive outcome (A : Type) : Type :=
| Ret (a : A)        (* the code ran to its end and produced [a] *)
| IndexError         (* a subscript was out of range *)
| OutOfFuel.         (* the fuel given to the model ran out *)

Arguments Ret {A} a.
Arguments IndexError {A}.
Arguments OutOfFuel {A}.

Definition bind {A B} (m : outcome A) (k : A → outcome B) : outcome B :=
  match m with
  | Ret a => k a
  | IndexError => IndexError
  | OutOfFuel => OutOfFuel
  end.

(** [l[i]] for a non-negative index [i] *)
Definition index {A} (l : list A) (i : nat) : outcome A :=
  match l !! i with
  | Some x => Ret x
  | None => IndexError
  end.

(** [[f(x) for x in l]], stopping at the first exception *)
Fixpoint for_each {A B} (f : A → outcome B) (l : list A) : outcome (list B) :=
  match l with
  | [] => Ret []
  | x :: l' =>
      bind (f x) (λ y, bind (for_each f l') (λ ys, Ret (y :: ys)))
  end.

End Outcome.
Import Outcome.

#[global] Instance outcome_eq_dec `{EqDecision A} : EqDecision (outcome A).
Proof. solve_decision. Defined.
#[global] Instance outcome_bind : MBind outcome := λ A B k m, bind m k.
#[global] Instance outcome_ret : MRet outcome := λ A a, Ret a.

(** ** Data model *)

(** A grid is a list of rows.  Nothing in the type says 9×9: the functions
    below are defined on every list of lists, as in Python. *)
Abbreviation grid := (list (list Z)).

(** A step [(i, j, nr)]: write [nr] at row [i], column [j]. *)
Abbreviation step := (nat * nat * Z)%type.

(** The set literal [{1, 2, 3, 4, 5, 6, 7, 8, 9}], named [ref] in six
    functions of the source. *)
Definition digits : list Z := [1; 2; 3; 4; 5; 6; 7; 8; 9].
Definition ref : gset Z := list_to_set digits.

(** Iterating over a set.  Every set the program iterates over is obtained
    from the literal [{1, ..., 9}] by removing elements; CPython keeps the
    small integers of such a set at the slot of their value, so that
    iteration yields them in increasing order. *)
Definition set_iter (s : gset Z) : list Z :=
  filter (λ d, d ∈ s) digits.

(** The slice [l[lo:hi]] for [0 <= lo <= hi] (out-of-range bounds clamp). *)
Definition slice {A} (lo hi : nat) (l : list A) : list A :=
  take (hi - lo) (drop lo l).

(** ** Grid accessors *)

Definition get_fields {A} (sudoku : list (list A)) : list (list (list A)) :=
  i ← seq 0 3;
  j ← seq 0 3;
  let current := slice (i * 3) ((i + 1) * 3) sudoku in
  let current := (λ element, slice (j * 3) ((j + 1) * 3) element) <$> current in
  [current].

(** [get_field] with [flatten=True], the only way the program calls it. *)
Definition get_field {A} (i j : nat) (sudoku : list (list A)) : outcome (list A) :=
  res ← index (get_fields sudoku) ((i / 3) * 3 + (j / 3))%nat;
  Ret (mjoin (res : list (list A))).

Definition get_row {A} (i : nat) (sudoku : list (list A)) : outcome (list A) :=
  index sudoku i.

Definition get_column {A} (j : nat) (sudoku : list (list A)) : outcome (list A) :=
  for_each (λ row, index row j) sudoku.

(** ** Constraint queries *)

Definition get_possible_values (i j : nat) (sudoku : grid) : outcome (gset Z) :=
  field ← get_field i j sudoku;
  let ref := ref ∖ list_to_set field in
  row ← get_row i sudoku;
  let ref := ref ∖ list_to_set row in
  column ← get_column j sudoku;
  let ref := ref ∖ list_to_set column in
  Ret ref.

Definition get_possibilities (sudoku : grid) : outcome (list (list (gset Z))) :=
  for_each (λ i,
    for_each (λ j,
      row ← index sudoku i;
      v ← index row j;
      if decide (v ∉ ref) then get_possible_values i j sudoku
      else Ret ∅)
      (seq 0 9))
    (seq 0 9).

(** ** The validator *)

(** The columns of [arr], obtained in the source by unpacking [arr] into
    [zip]: as many columns as the shortest row has entries. *)
Definition zip_star {A} (arr : list (list A)) : list (list A) :=
  match arr with
  | [] => []
  | r :: rs =>
      let n := foldr Nat.min (length r) (length <$> rs) in
      (λ k, omap (λ row, row !! k) arr) <$> seq 0 n
  end.

Definition is_valid (sudoku : grid) : bool :=
  let arr := sudoku in
  if negb (forallb (λ i, bool_decide (list_to_set i = ref)) arr) then false
  else if negb (forallb (λ i, bool_decide (list_to_set i = ref)) (zip_star arr))
  then false
  else if negb (forallb (λ i, let flat := mjoin i in
                              bool_decide (list_to_set flat = ref))
                  (get_fields arr))
  then false
  else true.

(** ** The propagator *)

(** [enumerate(iterable)] *)
Definition enumerate {A} (iterable : list A) : list (nat * A) :=
  imap (λ i_curr x, (i_curr, x)) iterable.

(** The local function [other_contains] of [can_be_placed_elsewhere].  The
    candidate table holds a set in every entry, so the test
    [type(set_curr) == set] of the source is always passed. *)
Definition other_contains (iterable : list (gset Z)) (index : nat) (item : Z) : bool :=
  existsb (λ '(i_curr, set_curr),
             bool_decide (i_curr ≠ index) && bool_decide (item ∈ set_curr))
          (enumerate iterable).

Definition can_be_placed_in_row (i j : nat) (nr : Z) (poss : list (list (gset Z)))
  : outcome bool :=
  row ← get_row i poss; Ret (other_contains row j nr).

Definition can_be_placed_in_column (i j : nat) (nr : Z) (poss : list (list (gset Z)))
  : outcome bool :=
  column ← get_column j poss; Ret (other_contains column i nr).

Definition can_be_placed_in_field (i j : nat) (nr : Z) (poss : list (list (gset Z)))
  : outcome bool :=
  field ← get_field i j poss;
  Ret (other_contains field ((i `mod` 3) * 3 + (j `mod` 3))%nat nr).

(** Python's [and] evaluates its right operand only when the left one is
    true. *)
Definition can_be_placed_elsewhere (i j : nat) (nr : Z) (poss : list (list (gset Z)))
  : outcome bool :=
  c ← can_be_placed_in_column i j nr poss;
  if (c : bool) then
    (r ← can_be_placed_in_row i j nr poss;
     if (r : bool) then can_be_placed_in_field i j nr poss else Ret false)
  else Ret false.

(** The loop [for number in current: ...; break] of [find_next_steps]: the
    steps it appends to [res]. *)
Fixpoint scan_numbers (i j : nat) (poss : list (list (gset Z))) (numbers : list Z)
  : outcome (list step) :=
  match numbers with
  | [] => Ret []
  | number :: rest =>
      b ← can_be_placed_elsewhere i j number poss;
      if negb b then Ret [(i, j, number)]
      else scan_numbers i j poss rest
  end.

(** The body of the two loops of [find_next_steps] at [(i, j)]: the steps it
    appends to [res].  A set of [poss] with one element is a subset of
    [ref], so [next(iter(current))] is the head of [set_iter current]. *)
Definition steps_at (i j : nat) (poss : list (list (gset Z))) : outcome (list step) :=
  row ← index poss i;
  current ← index row j;
  if decide (size current = 1%nat) then
    match set_iter current with
    | number :: _ => Ret [(i, j, number)]
    | [] => Ret []
    end
  else scan_numbers i j poss (set_iter current).

Definition find_next_steps (sudoku : grid) : outcome (list step) :=
  poss ← get_possibilities sudoku;
  per_row ← for_each (λ i,
     per_cell ← for_each (λ j, steps_at i j poss) (seq 0 9);
     Ret (mjoin (per_cell : list (list step)))) (seq 0 9);
  Ret (mjoin (per_row : list (list step))).

(** [sudoku[i][j] = nr].  The rows of a grid are distinct list objects, so
    the write changes one row. *)
Definition set_cell (sudoku : grid) (i j : nat) (nr : Z) : outcome grid :=
  row ← index sudoku i;
  if decide (j < length row)%nat then Ret (<[i := <[j := nr]> row]> sudoku)
  else IndexError.

Fixpoint perform_steps (steps : list step) (sudoku : grid) : outcome grid :=
  match steps with
  | [] => Ret sudoku
  | (i, j, nr) :: rest =>
      sudoku ← set_cell sudoku i j nr;
      perform_steps rest sudoku
  end.

(** ** Backtracking search *)

(** The local function [next_step] of [brute_force]. *)
Fixpoint next_step_from (cells : list (nat * nat)) (sudoku : grid)
  : outcome (option (nat * nat * gset Z)) :=
  match cells with
  | [] => Ret None
  | (i, j) :: rest =>
      row ← index sudoku i;
      v ← index row j;
      if decide (v ∉ ref) then
        (nrs ← get_possible_values i j sudoku;
         Ret (Some (i, j, nrs)))
      else next_step_from rest sudoku
  end.

(** The pairs [(i, j)] in the order of two nested [range(9)] loops. *)
Definition cells : list (nat * nat) :=
  i ← seq 0 9; j ← seq 0 9; [(i, j)].

Definition next_step (sudoku : grid) : outcome (option (nat * nat * gset Z)) :=
  next_step_from cells sudoku.

(** The loop [for nr in nrs: ...] of [try_combinations] and the two
    statements after it; [recurse] is the recursive call.  The grid is one
    shared object: every call receives the grid as the previous call left
    it and hands it on together with its verdict. *)
Fixpoint try_numbers (recurse : grid → outcome (bool * grid)) (i j : nat)
    (numbers : list Z) (sudoku : grid) : outcome (bool * grid) :=
  match numbers with
  | [] =>
      sudoku ← set_cell sudoku i j 0;
      Ret (false, sudoku)
  | nr :: rest =>
      sudoku ← set_cell sudoku i j nr;
      r ← recurse sudoku;
      if (r.1 : bool) then Ret (true, r.2)
      else try_numbers recurse i j rest r.2
  end.

(** The local function [try_combinations] of [brute_force].  One unit of
    fuel is one level of recursion. *)
Fixpoint try_combinations (fuel : nat) (sudoku : grid) : outcome (bool * grid) :=
  match fuel with
  | O => OutOfFuel
  | S fuel =>
      step ← next_step sudoku;
      match step with
      | None => Ret (is_valid sudoku, sudoku)
      | Some (i, j, nrs) =>
          try_numbers (try_combinations fuel) i j (set_iter nrs) sudoku
      end
  end.

Definition brute_force (fuel : nat) (sudoku : grid) : outcome (bool * grid) :=
  try_combinations fuel sudoku.

(** ** The entry point *)

(** The [while True] loop of [solve]; one unit of fuel is one iteration.
    Returns [step_counter] and the grid. *)
Fixpoint solve_loop (fuel : nat) (step_counter : nat) (sudoku : grid)
  : outcome (nat * grid) :=
  match fuel with
  | O => OutOfFuel
  | S fuel =>
      let step_counter := (step_counter + 1)%nat in
      steps ← find_next_steps sudoku;
      if decide (length steps = 0%nat) then Ret (step_counter, sudoku)
      else
        (sudoku ← perform_steps steps sudoku;
         solve_loop fuel step_counter sudoku)
  end.

(** [solve(sudoku)] with [outputs=False]; with [outputs=True] the same
    writes happen and the grid is printed in between.  The function has no
    [return] statement: its value is [None] on every path, here [tt]; the
    value of [brute_force] is dropped. *)
Definition solve (fuel : nat) (sudoku : grid) : outcome (unit * grid) :=
  r ← solve_loop fuel 0 sudoku;
  let sudoku := r.2 in
  if negb (is_valid sudoku) then
    (r ← brute_force fuel sudoku;
     Ret (tt, r.2))
  else Ret (tt, sudoku).

(** ** Loading, printing, comparing *)

(** A Python string, one [ascii] per character. *)
Abbreviation pystr := (list ascii).

Definition digit_chars : list (ascii * Z) :=
  [("1"%char, 1); ("2"%char, 2); ("3"%char, 3); ("4"%char, 4); ("5"%char, 5);
   ("6"%char, 6); ("7"%char, 7); ("8"%char, 8); ("9"%char, 9)].

(** [parse_sudoku]: a character in [{'1', ..., '9'}] becomes its [int], any
    other character becomes [0]. *)
Definition parse_elem (elem : ascii) : Z :=
  match list_find (λ p, p.1 = elem) digit_chars with
  | Some (_, p) => p.2
  | None => 0
  end.

Definition parse_sudoku (sudoku : list (list ascii)) : grid :=
  (λ i : list ascii, parse_elem <$> i) <$> sudoku.

(** [convert_string_to_array]: [curr] collects characters and is appended to
    [res] each time it reaches a multiple of nine. *)
Fixpoint convert_from (index : nat) (curr : list ascii) (res : list (list ascii))
    (string : pystr) : list (list ascii) :=
  match string with
  | [] => res
  | char :: rest =>
      let curr := curr ++ [char] in
      if decide (index `mod` 9 = 8)%nat
      then convert_from (S index) [] (res ++ [curr]) rest
      else convert_from (S index) curr res rest
  end.

Definition convert_string_to_array (string : pystr) : list (list ascii) :=
  convert_from 0 [] [] string.

(** [str(x)] for an integer [x]. *)
Definition str_int (x : Z) : pystr :=
  list_ascii_of_string (NilZero.string_of_int (Z.to_int x)).

(** [", ".join(l)] *)
Fixpoint join_comma (l : list pystr) : pystr :=
  match l with
  | [] => []
  | [x] => x
  | x :: rest => x ++ [","%char; " "%char] ++ join_comma rest
  end.

(** What [print(row)] writes for a list of integers. *)
Definition print_row (row : list Z) : pystr :=
  ["["%char] ++ join_comma (str_int <$> row) ++ ["]"%char; "010"%char].

(** [print_sudoku]: the text written to the standard output. *)
Definition print_sudoku (sudoku : grid) : pystr :=
  mjoin (print_row <$> sudoku) ++ ["010"%char].

(** [equality(s1, s2)] *)
Fixpoint equality_from (cells : list (nat * nat)) (s1 s2 : grid) : outcome bool :=
  match cells with
  | [] => Ret true
  | (i, j) :: rest =>
      r1 ← index s1 i; x1 ← index r1 j;
      r2 ← index s2 i; x2 ← index r2 j;
      if decide (x1 ≠ x2) then Ret false
      else equality_from rest s1 s2
  end.

Definition equality (s1 s2 : grid) : outcome bool := equality_from cells s1 s2.

(** ** [solve] with its [outputs] flag *)





(** * Specification vocabulary *)

(** A table of nine rows of nine entries. *)
Definition wf_table {A} (t : list (list A)) : Prop :=
  length t = 9%nat ∧ Forall (λ row, length row = 9%nat) t.

(** All values in [0, 9]. *)
Definition in_range (g : grid) : Prop := Forall (Forall (λ v, 0 ≤ v ≤ 9)) g.

(** A well-formed grid: 9×9 with every value in [0, 9]. *)
Definition well_formed (g : grid) : Prop := wf_table g ∧ in_range g.

(** The entry at a coordinate (the default of the lookup is never reached
    on a 9×9 table and a coordinate of [cells]). *)
Definition cell `{Inhabited A} (t : list (list A)) (p : nat * nat) : A :=
  (t !!! p.1) !!! p.2.

(** The coordinates of row [i], of column [j], and of the box around
    [(i, j)], in the order in which [get_row], [get_column] and [get_field]
    list them. *)
Definition row_cells (i : nat) : list (nat * nat) := (λ k, (i, k)) <$> seq 0 9.
Definition col_cells (j : nat) : list (nat * nat) := (λ k, (k, j)) <$> seq 0 9.
Definition box_cells (i j : nat) : list (nat * nat) :=
  (λ k, (i / 3 * 3 + k / 3, j / 3 * 3 + k `mod` 3)%nat) <$> seq 0 9.

(** The nine boxes, by box index [b = (row / 3) * 3 + col / 3]. *)
Definition box_of (b : nat) : list (nat * nat) :=
  box_cells (b / 3 * 3) (b `mod` 3 * 3).

Definition vals `{Inhabited A} (t : list (list A)) (u : list (nat * nat)) : list A :=
  cell t <$> u.

(** A unit (a row, a column or a box) is in order when its values are the
    nine digits in some order: each digit exactly once. *)
Definition unit_ok (g : grid) (u : list (nat * nat)) : Prop :=
  vals g u ≡ₚ digits.

(** A solved grid: 9×9 and accepted by the validator. *)
Definition solution (S : grid) : Prop := wf_table S ∧ is_valid S = true.

(** The table with entry [f i j] at [(i, j)]. *)
Definition tabulate {A} (f : nat → nat → A) : list (list A) :=
  (λ i, (λ j, f i j) <$> seq 0 9) <$> seq 0 9.

(** The digits still free at [(i, j)]: those of [ref] that occur neither in
    the box, nor in the row, nor in the column of the cell. *)
Definition candidates (g : grid) (i j : nat) : gset Z :=
  ref ∖ list_to_set (vals g (box_cells i j))
      ∖ list_to_set (vals g (row_cells i))
      ∖ list_to_set (vals g (col_cells j)).

(** The entry of the candidate table at [(i, j)]. *)
Definition entry (g : grid) (i j : nat) : gset Z :=
  if decide (cell g (i, j) ∉ ref) then candidates g i j else ∅.

(** The three tests of [can_be_placed_elsewhere], combined as the source
    combines them. *)
Definition elsewhere (poss : list (list (gset Z))) (i j : nat) (nr : Z) : bool :=
  other_contains (vals poss (col_cells j)) i nr
  && other_contains (vals poss (row_cells i)) j nr
  && other_contains (vals poss (box_cells i j)) (i `mod` 3 * 3 + j `mod` 3)%nat nr.

(** The step found by scanning a list of digits: the first one that cannot
    be placed elsewhere. *)
Definition first_stuck (poss : list (list (gset Z))) (i j : nat) (numbers : list Z)
  : list step :=
  match list_find (λ nr, elsewhere poss i j nr = false) numbers with
  | Some (_, nr) => [(i, j, nr)]
  | None => []
  end.

(** The steps contributed by the cell [(i, j)]. *)
Definition cell_steps (poss : list (list (gset Z))) (p : nat * nat) : list step :=
  let current := cell poss p in
  if decide (size current = 1%nat) then
    match set_iter current with
    | number :: _ => [(p.1, p.2, number)]
    | [] => []
    end
  else first_stuck poss p.1 p.2 (set_iter current).

(** The batch of steps of one pass over [g]. *)
Definition batch (g : grid) : list step :=
  cells ≫= cell_steps (tabulate (entry g)).

(** The number of empty cells: those whose value is not a digit. *)
Definition empties (g : grid) : nat :=
  length (filter (λ p, cell g p ∉ ref) cells).

(** One iteration of the loop of [solve] that goes on: a non-empty batch is
    applied. *)
Definition pass (g g' : grid) : Prop :=
  wf_table g ∧ batch g ≠ [] ∧ perform_steps (batch g) g = Ret g'.

(** [S] keeps every digit of [g]. *)
Definition extends (g S : grid) : Prop :=
  ∀ p, p ∈ cells → cell g p ∈ ref → cell S p = cell g p.

(** [S] is a valid completion of [g]. *)
Definition completion (g S : grid) : Prop := solution S ∧ extends g S.

(** The three units of a cell, for arguments that hold of each of them. *)
Inductive unit_of (i j : nat) : list (nat * nat) → nat → Prop :=
| unit_col : unit_of i j (col_cells j) i
| unit_row : unit_of i j (row_cells i) j
| unit_box : unit_of i j (box_cells i j) (i `mod` 3 * 3 + j `mod` 3)%nat.

(** What a call of [try_combinations] owes its caller: the grid it was
    given is either completed to a solution or handed back as it was, and
    in the second case it has no completion. *)
Definition search_ok (g : grid) (r : outcome (bool * grid)) : Prop :=
  ∃ b g', r = Ret (b, g') ∧
    if b then completion g g'
    else g' = g ∧ ¬ ∃ S, completion g S.

(** [Load]: from the compact string to the grid. *)
Definition load (string : pystr) : grid :=
  parse_sudoku (convert_string_to_array string).

(** The characters of the decimal digits. *)
Definition is_digit (c : ascii) : Prop :=
  c ∈ list_ascii_of_string "0123456789".

#[global] Instance is_digit_dec c : Decision (is_digit c).
Proof. unfold is_digit. apply _. Defined.

(** The character that [str] gives for a value of a cell. *)
Definition digit_char (v : Z) : ascii :=
  match str_int v with
  | c :: _ => c
  | [] => "0"%char
  end.

(** The vocabulary is decidable, so that it can be evaluated on a concrete
    grid. *)
#[global] Instance wf_table_dec {A} (t : list (list A)) : Decision (wf_table t).
Proof. unfold wf_table. apply _. Defined.

#[global] Instance well_formed_dec (g : grid) : Decision (well_formed g).
Proof. unfold well_formed. apply _. Defined.

#[global] Instance solution_dec (S : grid) : Decision (solution S).
Proof. unfold solution. apply _. Defined.

#[global] Instance extends_dec (g S : grid) : Decision (extends g S).
Proof.
  refine (cast_if (decide (Forall (λ p, cell g p ∈ ref → cell S p = cell g p) cells)));
    unfold extends; by rewrite Forall_forall in *.
Defined.

#[global] Instance completion_dec (g S : grid) : Decision (completion g S).
Proof. unfold completion. apply _. Defined.

(** The order in which a dictionary lists two rows of numbers: the first
    place where they differ decides. *)
Fixpoint lex_le (l k : list Z) : Prop :=
  match l, k with
  | [], _ => True
  | _ :: _, [] => False
  | x :: l, y :: k => x < y ∨ (x = y ∧ lex_le l k)
  end.



(** * Concrete grids *)

(** The puzzle of the driver at the end of the source. *)
Definition puzzle : pystr := list_ascii_of_string
  "7...54..1.1.9.6....64....39....3.5...3..2..1...6.9....87....24....5.9.8.4..28...3".

Definition zs : grid :=
  [ [7; 0; 0; 0; 5; 4; 0; 0; 1]; [0; 1; 0; 9; 0; 6; 0; 0; 0];
    [0; 6; 4; 0; 0; 0; 0; 3; 9]; [0; 0; 0; 0; 3; 0; 5; 0; 0];
    [0; 3; 0; 0; 2; 0; 0; 1; 0]; [0; 0; 6; 0; 9; 0; 0; 0; 0];
    [8; 7; 0; 0; 0; 0; 2; 4; 0]; [0; 0; 0; 5; 0; 9; 0; 8; 0];
    [4; 0; 0; 2; 8; 0; 0; 0; 3] ].

Definition zs_solved : grid :=
  [ [7; 9; 8; 3; 5; 4; 6; 2; 1]; [3; 1; 2; 9; 7; 6; 8; 5; 4];
    [5; 6; 4; 8; 1; 2; 7; 3; 9]; [2; 4; 7; 6; 3; 1; 5; 9; 8];
    [9; 3; 5; 7; 2; 8; 4; 1; 6]; [1; 8; 6; 4; 9; 5; 3; 7; 2];
    [8; 7; 9; 1; 6; 3; 2; 4; 5]; [6; 2; 3; 5; 4; 9; 1; 8; 7];
    [4; 5; 1; 2; 8; 7; 9; 6; 3] ].

(** A grid without completion: row 0 lacks 8 and 9, and its only empty cell
    sees both in its column.  The last cell of row 8 can only take 1. *)
Definition bad : grid :=
  [ [0; 1; 1; 2; 3; 4; 5; 6; 7]; [8; 0; 0; 0; 0; 0; 0; 0; 0];
    [9; 0; 0; 0; 0; 0; 0; 0; 0]; [0; 0; 0; 0; 0; 0; 0; 0; 0];
    [0; 0; 0; 0; 0; 0; 0; 0; 0]; [0; 0; 0; 0; 0; 0; 0; 0; 0];
    [0; 0; 0; 0; 0; 0; 0; 0; 0]; [0; 0; 0; 0; 0; 0; 0; 0; 0];
    [2; 3; 4; 5; 6; 7; 8; 9; 0] ].

Definition bad_after : grid :=
  [ [0; 1; 1; 2; 3; 4; 5; 6; 7]; [8; 0; 0; 0; 0; 0; 0; 0; 0];
    [9; 0; 0; 0; 0; 0; 0; 0; 0]; [0; 0; 0; 0; 0; 0; 0; 0; 0];
    [0; 0; 0; 0; 0; 0; 0; 0; 0]; [0; 0; 0; 0; 0; 0; 0; 0; 0];
    [0; 0; 0; 0; 0; 0; 0; 0; 0]; [0; 0; 0; 0; 0; 0; 0; 0; 0];
    [2; 3; 4; 5; 6; 7; 8; 9; 1] ].

(** A grid on which the search goes two cells deep before it gives up: the
    first two cells of row 0 can both only take 2. *)
Definition dead_end : grid :=
  [ [0; 0; 3; 4; 5; 6; 7; 8; 9]; [0; 0; 0; 0; 0; 0; 0; 0; 0];
    [0; 0; 0; 0; 0; 0; 0; 0; 0]; [1; 0; 0; 0; 0; 0; 0; 0; 0];
    [0; 1; 0; 0; 0; 0; 0; 0; 0]; [0; 0; 0; 0; 0; 0; 0; 0; 0];
    [0; 0; 0; 0; 0; 0; 0; 0; 0]; [0; 0; 0; 0; 0; 0; 0; 0; 0];
    [0; 0; 0; 0; 0; 0; 0; 0; 0] ].

(** * Tactics *)

Ltac list9 l H :=
  (do 9 (destruct l as [|? l]; [discriminate H|]));
  (destruct l; [clear H|discriminate H]).

Ltac explode_table t Hwf :=
  let Hlen := fresh "Hlen" in
  let Hrows := fresh "Hrows" in
  destruct Hwf as [Hlen Hrows];
  (list9 t Hlen);
  repeat match goal with
    | H : Forall _ (_ :: _) |- _ =>
        let Hr := fresh "Hr" in apply Forall_cons_1 in H as [Hr H]
    | H : Forall _ [] |- _ => clear H
    end;
  repeat match goal with
    | H : length ?r = 9%nat |- _ => list9 r H
    end.

Ltac cases9 i Hi :=
  (do 9 (try (destruct i as [|i])));
  try (exfalso; clear -Hi; lia); clear Hi.

Ltac by_decide :=
  match goal with |- ?P => apply (bool_decide_unpack P); vm_compute; exact I end.

Ltac range_cases v H :=
  assert (v = 0 ∨ v = 1 ∨ v = 2 ∨ v = 3 ∨ v = 4 ∨ v = 5 ∨ v = 6 ∨ v = 7
          ∨ v = 8 ∨ v = 9) as H by lia;
  repeat (destruct H as [H|H]); subst v.

(** * Reading a 9×9 table *)

Section tables.
Context `{Inhabited A}.
Implicit Types t : list (list A).

Lemma get_row_wf t i :
  wf_table t → (i < 9)%nat → get_row i t = Ret (vals t (row_cells i)).
Proof.
  intros Hwf Hi. explode_table t Hwf. cases9 i Hi; reflexivity.
Qed.

Lemma get_column_wf t j :
  wf_table t → (j < 9)%nat → get_column j t = Ret (vals t (col_cells j)).
Proof.
  intros Hwf Hj. explode_table t Hwf. cases9 j Hj; reflexivity.
Qed.

Lemma get_field_wf t i j :
  wf_table t → (i < 9)%nat → (j < 9)%nat →
  get_field i j t = Ret (vals t (box_cells i j)).
Proof.
  intros Hwf Hi Hj. explode_table t Hwf.
  cases9 i Hi; cases9 j Hj; reflexivity.
Qed.

Lemma index_cell t i j :
  wf_table t → (i < 9)%nat → (j < 9)%nat →
  ∃ row, index t i = Ret row ∧ index row j = Ret (cell t (i, j))
         ∧ t !! i = Some row ∧ length row = 9%nat.
Proof.
  intros Hwf Hi Hj. explode_table t Hwf.
  cases9 i Hi; (eexists; split; [reflexivity|]); cases9 j Hj; done.
Qed.

Lemma rows_wf t : wf_table t → t = vals t <$> (row_cells <$> seq 0 9).
Proof. intros Hwf. explode_table t Hwf. reflexivity. Qed.

Lemma zip_star_wf t :
  wf_table t → zip_star t = vals t <$> (col_cells <$> seq 0 9).
Proof. intros Hwf. explode_table t Hwf. reflexivity. Qed.

Lemma get_fields_wf t :
  wf_table t → mjoin <$> get_fields t = vals t <$> (box_of <$> seq 0 9).
Proof. intros Hwf. explode_table t Hwf. reflexivity. Qed.

End tables.

(** * Sets of digits *)

Lemma elem_of_digits d : d ∈ digits ↔ 1 ≤ d ≤ 9.
Proof.
  unfold digits. split.
  - intros Hd. repeat (apply elem_of_cons in Hd as [->|Hd]); try lia.
    by apply elem_of_nil in Hd.
  - intros Hd.
    assert (d = 1 ∨ d = 2 ∨ d = 3 ∨ d = 4 ∨ d = 5 ∨ d = 6 ∨ d = 7 ∨ d = 8 ∨ d = 9)
      as Hcases by lia.
    clear Hd. set_solver.
Qed.

Lemma elem_of_ref d : d ∈ ref ↔ 1 ≤ d ≤ 9.
Proof. unfold ref. by rewrite elem_of_list_to_set, elem_of_digits. Qed.

Lemma NoDup_digits : NoDup digits.
Proof.
  unfold digits. repeat (apply NoDup_cons; split; [set_solver|]).
  apply NoDup_nil_2.
Qed.

Lemma elem_of_set_iter d s : d ∈ set_iter s ↔ d ∈ s ∧ 1 ≤ d ≤ 9.
Proof. unfold set_iter. by rewrite list_elem_of_filter, elem_of_digits. Qed.

(** A list of nine values makes the set [ref] exactly when it is a
    rearrangement of the nine digits. *)
Lemma list_to_set_ref_perm (l : list Z) :
  length l = 9%nat → list_to_set l = ref ↔ l ≡ₚ digits.
Proof.
  intros Hlen. split.
  - intros Hset. symmetry. apply submseteq_length_Permutation.
    + apply NoDup_submseteq; [apply NoDup_digits|].
      intros x Hx. apply (elem_of_list_to_set (C:=gset Z)).
      rewrite Hset. unfold ref. by apply elem_of_list_to_set.
    + by rewrite Hlen.
  - intros Hperm. unfold ref. by rewrite Hperm.
Qed.

Lemma count_occ_digits d : 1 ≤ d ≤ 9 → count_occ Z.eq_dec digits d = 1%nat.
Proof.
  intros Hd.
  assert (d = 1 ∨ d = 2 ∨ d = 3 ∨ d = 4 ∨ d = 5 ∨ d = 6 ∨ d = 7 ∨ d = 8 ∨ d = 9)
    as Hcases by lia.
  repeat (destruct Hcases as [->|Hcases]; [reflexivity|]). by subst.
Qed.

Lemma perm_digits_count (l : list Z) :
  length l = 9%nat →
  l ≡ₚ digits ↔ ∀ d, 1 ≤ d ≤ 9 → count_occ Z.eq_dec l d = 1%nat.
Proof.
  intros Hlen. split.
  - intros Hperm d Hd.
    rewrite (proj1 (Permutation_count_occ Z.eq_dec l digits) Hperm d).
    by apply count_occ_digits.
  - intros Hcount. symmetry. apply submseteq_length_Permutation.
    + apply NoDup_submseteq; [apply NoDup_digits|].
      intros x Hx%elem_of_digits. apply list_elem_of_In.
      apply (count_occ_In Z.eq_dec). rewrite Hcount by done. lia.
    + by rewrite Hlen.
Qed.

(** * The validator on a 9×9 grid *)

Lemma length_vals `{Inhabited A} (t : list (list A)) u : length (vals t u) = length u.
Proof. unfold vals. by rewrite length_fmap. Qed.

Lemma is_valid_forallb (g : grid) :
  is_valid g =
    forallb (λ i, bool_decide (list_to_set i = ref)) g
    && forallb (λ i, bool_decide (list_to_set i = ref)) (zip_star g)
    && forallb (λ i, bool_decide (list_to_set i = ref))
         (mjoin (M:=list) <$> get_fields g).
Proof.
  unfold is_valid. cbv zeta.
  assert (∀ (f : list Z → bool) (l : list (list (list Z))),
             forallb (λ i, f (mjoin i)) l = forallb f (mjoin (M:=list) <$> l)) as Hflat.
  { intros f l. induction l as [|x l IH]; simpl; [done|by rewrite IH]. }
  pose proof (Hflat (λ flat, bool_decide (list_to_set flat = ref))
                (get_fields g)) as <-.
  by repeat destruct (forallb _ _).
Qed.

Lemma is_valid_Forall (g : grid) :
  is_valid g = true ↔
    Forall (λ l, list_to_set l = ref) g
    ∧ Forall (λ l, list_to_set l = ref) (zip_star g)
    ∧ Forall (λ l, list_to_set l = ref) (mjoin (M:=list) <$> get_fields g).
Proof.
  assert (∀ l : list (list Z),
             forallb (λ i, bool_decide (list_to_set i = ref)) l = true
             ↔ Forall (λ l, list_to_set l =@{gset Z} ref) l) as Hall.
  { intros l. rewrite <-Is_true_true, forallb_True.
    apply Forall_iff. intros x. apply bool_decide_spec. }
  rewrite is_valid_forallb.
  generalize (zip_star g), (mjoin (M:=list) <$> get_fields g). intros cs bs.
  rewrite <-!Hall.
  destruct (forallb _ g), (forallb _ cs), (forallb _ bs); simpl; naive_solver.
Qed.

Lemma Forall_units (g : grid) (f : nat → list (nat * nat)) :
  (∀ k, length (f k) = 9%nat) →
  Forall (λ l, list_to_set l = ref) (vals g <$> (f <$> seq 0 9))
  ↔ ∀ k, (k < 9)%nat → unit_ok g (f k).
Proof.
  intros Hlen. rewrite !Forall_fmap, Forall_seq. unfold unit_ok, compose.
  split; intros Hall k Hk.
  - apply list_to_set_ref_perm; [by rewrite length_vals|]. refine (Hall k _). lia.
  - apply list_to_set_ref_perm; [by rewrite length_vals|]. refine (Hall k _). lia.
Qed.

Lemma is_valid_units (g : grid) :
  wf_table g →
  is_valid g = true ↔
    ∀ k, (k < 9)%nat →
         unit_ok g (row_cells k) ∧ unit_ok g (col_cells k) ∧ unit_ok g (box_of k).
Proof.
  intros Hwf. rewrite is_valid_Forall, zip_star_wf, get_fields_wf by done.
  assert (∀ P : list Z → Prop,
             Forall P g ↔ Forall P (vals g <$> (row_cells <$> seq 0 9))) as ->.
  { intros P. by rewrite <-(rows_wf g Hwf). }
  rewrite !Forall_units by done. split.
  - intros (Hr & Hc & Hb) k Hk.
    exact (conj (Hr k Hk) (conj (Hc k Hk) (Hb k Hk))).
  - intros Hall. split; [|split]; intros k Hk.
    + exact (proj1 (Hall k Hk)).
    + exact (proj1 (proj2 (Hall k Hk))).
    + exact (proj2 (proj2 (Hall k Hk))).
Qed.

(** ** What a unit in order gives *)

Lemma NoDup_fmap_eq {A B} (f : A → B) (l : list A) x y :
  NoDup (f <$> l) → x ∈ l → y ∈ l → f x = f y → x = y.
Proof.
  induction l as [|a l IH]; csimpl; [by intros _ ?%elem_of_nil|].
  rewrite NoDup_cons, !elem_of_cons. intros [Ha Hl] [->|Hx] [->|Hy] Hf; try done.
  - destruct Ha. rewrite Hf. by apply list_elem_of_fmap_2.
  - destruct Ha. rewrite <-Hf. by apply list_elem_of_fmap_2.
  - by apply IH.
Qed.

Lemma unit_ok_range g u p : unit_ok g u → p ∈ u → 1 ≤ cell g p ≤ 9.
Proof.
  intros Hok Hp. apply elem_of_digits. rewrite <-Hok.
  by apply list_elem_of_fmap_2.
Qed.

Lemma unit_ok_inj g u p q :
  unit_ok g u → p ∈ u → q ∈ u → cell g p = cell g q → p = q.
Proof.
  intros Hok. apply NoDup_fmap_eq. fold (vals g u). rewrite Hok.
  apply NoDup_digits.
Qed.

Lemma unit_ok_surj g u d :
  unit_ok g u → 1 ≤ d ≤ 9 → ∃ p, p ∈ u ∧ cell g p = d.
Proof.
  intros Hok Hd%elem_of_digits. rewrite <-Hok in Hd.
  apply list_elem_of_fmap in Hd as (p & -> & Hp). eauto.
Qed.

(** ** Coordinates *)

Lemma elem_of_cells i j : (i, j) ∈ cells ↔ (i < 9)%nat ∧ (j < 9)%nat.
Proof.
  unfold cells. rewrite list_elem_of_bind. setoid_rewrite list_elem_of_bind.
  setoid_rewrite elem_of_seq. setoid_rewrite list_elem_of_singleton. split.
  - intros (i' & (j' & [= -> ->] & ?) & ?). lia.
  - intros [??]. exists i. split; [|lia]. exists j. split; [done|lia].
Qed.

Lemma in_row_cells i j : (j < 9)%nat → (i, j) ∈ row_cells i.
Proof. intros Hj. apply list_elem_of_fmap. exists j. split; [done|]. apply elem_of_seq. lia. Qed.

Lemma in_col_cells i j : (i < 9)%nat → (i, j) ∈ col_cells j.
Proof. intros Hj. apply list_elem_of_fmap. exists i. split; [done|]. apply elem_of_seq. lia. Qed.

Lemma in_box_cells i j : (i < 9)%nat → (j < 9)%nat → (i, j) ∈ box_cells i j.
Proof.
  intros Hi Hj. apply list_elem_of_fmap. exists (i `mod` 3 * 3 + j `mod` 3)%nat.
  split; [|apply elem_of_seq]; cases9 i Hi; cases9 j Hj; done || (simpl; lia).
Qed.

Lemma box_cells_box_of i j :
  (i < 9)%nat → (j < 9)%nat → box_cells i j = box_of (i / 3 * 3 + j / 3).
Proof. intros Hi Hj. cases9 i Hi; cases9 j Hj; reflexivity. Qed.

Lemma length_row_cells i : length (row_cells i) = 9%nat.
Proof. done. Qed.
Lemma length_col_cells j : length (col_cells j) = 9%nat.
Proof. done. Qed.
Lemma length_box_cells i j : length (box_cells i j) = 9%nat.
Proof. done. Qed.

Lemma solution_row S i : solution S → (i < 9)%nat → unit_ok S (row_cells i).
Proof. intros [Hwf Hv] Hi. by apply (is_valid_units S Hwf). Qed.

Lemma solution_col S j : solution S → (j < 9)%nat → unit_ok S (col_cells j).
Proof. intros [Hwf Hv] Hi. by apply (is_valid_units S Hwf). Qed.

Lemma solution_box S i j :
  solution S → (i < 9)%nat → (j < 9)%nat → unit_ok S (box_cells i j).
Proof.
  intros [Hwf Hv] Hi Hj. rewrite box_cells_box_of by done.
  apply (is_valid_units S Hwf); [done|]. cases9 i Hi; cases9 j Hj; simpl; lia.
Qed.

Lemma solution_filled S i j :
  solution S → (i < 9)%nat → (j < 9)%nat → 1 ≤ cell S (i, j) ≤ 9.
Proof.
  intros HS Hi Hj. eapply unit_ok_range; [by apply (solution_row S i)|].
  by apply in_row_cells.
Qed.

(** * The validator: every unit holds each digit exactly once *)

(** C3.  On a 9×9 grid of integers [is_valid] answers true exactly when
    every row, every column and every 3×3 box holds each of the digits 1 to
    9 exactly once; a grid with a cell equal to 0 is therefore rejected. *)
Theorem is_valid_exactly_once (g : grid) :
  wf_table g →
  (is_valid g = true ↔
     ∀ k d, (k < 9)%nat → 1 ≤ d ≤ 9 →
       count_occ Z.eq_dec (vals g (row_cells k)) d = 1%nat
       ∧ count_occ Z.eq_dec (vals g (col_cells k)) d = 1%nat
       ∧ count_occ Z.eq_dec (vals g (box_of k)) d = 1%nat)
  ∧ (∀ i j, (i < 9)%nat → (j < 9)%nat → cell g (i, j) = 0 → is_valid g = false).
Proof.
  intros Hwf. split.
  - rewrite (is_valid_units g Hwf). unfold unit_ok. split.
    + intros Hall k d Hk Hd. destruct (Hall k Hk) as (Hr & Hc & Hb).
      split_and!; by apply perm_digits_count.
    + intros Hall k Hk. split_and!; apply perm_digits_count; try done;
        intros d Hd; by apply (Hall k d Hk Hd).
  - intros i j Hi Hj Hz. destruct (is_valid g) eqn:Hv; [|done].
    pose proof (solution_filled g i j (conj Hwf Hv) Hi Hj). lia.
Qed.

(** * Running code that cannot fail *)

Lemma bind_Ret {A B} (a : A) (k : A → outcome B) : Ret a ≫= k = k a.
Proof. done. Qed.

Lemma for_each_Ret {A B} (f : A → outcome B) (h : A → B) (l : list A) :
  (∀ x, x ∈ l → f x = Ret (h x)) → for_each f l = Ret (h <$> l).
Proof.
  induction l as [|x l IH]; intros Hf; [done|]. simpl.
  rewrite Hf by left. simpl. rewrite IH; [done|].
  intros y Hy. apply Hf. by right.
Qed.

Lemma tabulate_wf {A} (f : nat → nat → A) : wf_table (tabulate f).
Proof. split; [done|]. unfold tabulate. by repeat constructor. Qed.

Lemma cell_tabulate `{Inhabited A} (f : nat → nat → A) i j :
  (i < 9)%nat → (j < 9)%nat → cell (tabulate f) (i, j) = f i j.
Proof. intros Hi Hj. cases9 i Hi; cases9 j Hj; reflexivity. Qed.

Lemma for_each_tabulate {A} (c : nat → nat → outcome A) (f : nat → nat → A) :
  (∀ i j, (i < 9)%nat → (j < 9)%nat → c i j = Ret (f i j)) →
  for_each (λ i, for_each (λ j, c i j) (seq 0 9)) (seq 0 9) = Ret (tabulate f).
Proof.
  intros Hc. unfold tabulate.
  apply (for_each_Ret _ (λ i, (λ j, f i j) <$> seq 0 9)).
  intros i Hi%elem_of_seq. apply (for_each_Ret _ (λ j, f i j)).
  intros j Hj%elem_of_seq. apply Hc; lia.
Qed.

(** * Constraint queries on a 9×9 grid *)

Lemma elem_of_candidates g i j d :
  d ∈ candidates g i j ↔
    1 ≤ d ≤ 9 ∧ (d ∉ vals g (row_cells i)) ∧ (d ∉ vals g (col_cells j))
    ∧ (d ∉ vals g (box_cells i j)).
Proof.
  unfold candidates.
  rewrite !elem_of_difference, !elem_of_list_to_set, elem_of_ref. tauto.
Qed.

Lemma get_possible_values_wf g i j :
  wf_table g → (i < 9)%nat → (j < 9)%nat →
  get_possible_values i j g = Ret (candidates g i j).
Proof.
  intros Hwf Hi Hj. unfold get_possible_values.
  rewrite get_field_wf, bind_Ret by done.
  rewrite get_row_wf, bind_Ret by done.
  by rewrite get_column_wf, bind_Ret by done.
Qed.

Lemma get_possibilities_wf g :
  wf_table g → get_possibilities g = Ret (tabulate (entry g)).
Proof.
  intros Hwf. unfold get_possibilities. apply for_each_tabulate.
  intros i j Hi Hj.
  destruct (index_cell g i j Hwf Hi Hj) as (row & -> & Hrow & _).
  rewrite bind_Ret, Hrow, bind_Ret. unfold entry.
  destruct (decide _); [by apply get_possible_values_wf|done].
Qed.

(** C4.  On a 9×9 grid, for an empty cell [get_possible_values] returns the
    digits 1 to 9 minus those present in the row, in the column and in the
    box of the cell, and that set is the cell's entry in the candidate table;
    for a filled cell the entry of the candidate table is the empty set. *)
Theorem legal_digits_correct (g : grid) (i j : nat) :
  wf_table g → (i < 9)%nat → (j < 9)%nat →
  ∃ poss,
    get_possibilities g = Ret poss ∧
    (cell g (i, j) ∉ ref →
       get_possible_values i j g = Ret (cell poss (i, j)) ∧
       ∀ d, d ∈ cell poss (i, j) ↔
              1 ≤ d ≤ 9 ∧ (d ∉ vals g (row_cells i)) ∧ (d ∉ vals g (col_cells j))
              ∧ (d ∉ vals g (box_cells i j))) ∧
    (1 ≤ cell g (i, j) ≤ 9 → cell poss (i, j) = ∅).
Proof.
  intros Hwf Hi Hj. exists (tabulate (entry g)).
  split; [by apply get_possibilities_wf|].
  rewrite cell_tabulate by done. unfold entry. split.
  - intros Hempty. rewrite decide_True by done.
    split; [by apply get_possible_values_wf|]. apply elem_of_candidates.
  - intros Hfilled%elem_of_ref. by rewrite decide_False by auto.
Qed.

(** * The propagator on a 9×9 grid *)

Lemma NoDup_row_cells i : NoDup (row_cells i).
Proof.
  apply NoDup_fmap_2_strong; [|apply NoDup_seq]. by intros ???? [= ->].
Qed.

Lemma NoDup_col_cells j : NoDup (col_cells j).
Proof.
  apply NoDup_fmap_2_strong; [|apply NoDup_seq]. by intros ???? [= ->].
Qed.

Lemma NoDup_box_cells i j : NoDup (box_cells i j).
Proof.
  apply NoDup_fmap_2_strong; [|apply NoDup_seq].
  intros x y Hx%elem_of_seq Hy%elem_of_seq [= H1 H2].
  assert (x < 9)%nat as Hx9 by lia. assert (y < 9)%nat as Hy9 by lia.
  clear Hx Hy. cases9 x Hx9; cases9 y Hy9; simpl in H1, H2; lia.
Qed.

Lemma lookup_row_cells i j : (j < 9)%nat → row_cells i !! j = Some (i, j).
Proof. intros Hj. unfold row_cells. by rewrite list_lookup_fmap, lookup_seq_lt. Qed.

Lemma lookup_col_cells i j : (i < 9)%nat → col_cells j !! i = Some (i, j).
Proof. intros Hj. unfold col_cells. by rewrite list_lookup_fmap, lookup_seq_lt. Qed.

Lemma lookup_box_cells i j :
  (i < 9)%nat → (j < 9)%nat →
  box_cells i j !! (i `mod` 3 * 3 + j `mod` 3)%nat = Some (i, j).
Proof. intros Hi Hj. cases9 i Hi; cases9 j Hj; reflexivity. Qed.

Section propagator.
Implicit Types poss : list (list (gset Z)).

(** [other_contains] finds the item in an entry other than the one at
    [index]. *)
Lemma other_contains_spec (sets : list (gset Z)) idx item :
  other_contains sets idx item = true ↔
    ∃ k s, sets !! k = Some s ∧ k ≠ idx ∧ item ∈ s.
Proof.
  unfold other_contains, enumerate. rewrite existsb_exists. split.
  - intros ([k s] & Hin & Hb). apply list_elem_of_In, list_elem_of_lookup in Hin.
    destruct Hin as [k' Hk']. rewrite list_lookup_imap in Hk'.
    destruct (sets !! k') as [s'|] eqn:Hs; simplify_eq/=.
    apply andb_true_iff in Hb as [Hne%bool_decide_eq_true Hin%bool_decide_eq_true].
    eauto.
  - intros (k & s & Hs & Hne & Hin). exists (k, s). split.
    + apply list_elem_of_In, list_elem_of_lookup. exists k.
      by rewrite list_lookup_imap, Hs.
    + apply andb_true_iff. by rewrite !bool_decide_eq_true.
Qed.

(** On the values of a unit: the item is a candidate of another cell of
    the unit. *)
Lemma other_contains_unit poss u idx p0 item :
  NoDup u → u !! idx = Some p0 →
  other_contains (vals poss u) idx item = true ↔
    ∃ p, p ∈ u ∧ p ≠ p0 ∧ item ∈ cell poss p.
Proof.
  intros Hnd Hidx. rewrite other_contains_spec. unfold vals. split.
  - intros (k & s & Hs & Hne & Hin).
    apply list_lookup_fmap_Some in Hs as (p & -> & Hp).
    exists p. split_and!; [by eapply list_elem_of_lookup_2| |done].
    intros ->. destruct Hne. by eapply NoDup_lookup.
  - intros (p & [k Hk]%list_elem_of_lookup & Hne & Hin).
    exists k, (cell poss p). split_and!; [|congruence|done].
    by rewrite list_lookup_fmap, Hk.
Qed.

Lemma can_be_placed_elsewhere_wf poss i j nr :
  wf_table poss → (i < 9)%nat → (j < 9)%nat →
  can_be_placed_elsewhere i j nr poss = Ret (elsewhere poss i j nr).
Proof.
  intros Hwf Hi Hj.
  unfold can_be_placed_elsewhere, can_be_placed_in_column,
    can_be_placed_in_row, can_be_placed_in_field, elsewhere.
  rewrite get_column_wf, !bind_Ret by done.
  destruct (other_contains (vals poss (col_cells j)) i nr); [|done].
  rewrite get_row_wf, !bind_Ret by done.
  destruct (other_contains (vals poss (row_cells i)) j nr); [|done].
  by rewrite get_field_wf, !bind_Ret by done.
Qed.

Lemma elsewhere_true poss i j nr :
  (i < 9)%nat → (j < 9)%nat →
  elsewhere poss i j nr = true ↔
    (∃ p, p ∈ col_cells j ∧ p ≠ (i, j) ∧ nr ∈ cell poss p)
    ∧ (∃ p, p ∈ row_cells i ∧ p ≠ (i, j) ∧ nr ∈ cell poss p)
    ∧ (∃ p, p ∈ box_cells i j ∧ p ≠ (i, j) ∧ nr ∈ cell poss p).
Proof.
  intros Hi Hj. unfold elsewhere. rewrite !andb_true_iff.
  rewrite (other_contains_unit poss (col_cells j) i (i, j))
    by auto using NoDup_col_cells, lookup_col_cells.
  rewrite (other_contains_unit poss (row_cells i) j (i, j))
    by auto using NoDup_row_cells, lookup_row_cells.
  rewrite (other_contains_unit poss (box_cells i j) _ (i, j))
    by auto using NoDup_box_cells, lookup_box_cells.
  tauto.
Qed.

Lemma scan_numbers_wf poss i j numbers :
  wf_table poss → (i < 9)%nat → (j < 9)%nat →
  scan_numbers i j poss numbers = Ret (first_stuck poss i j numbers).
Proof.
  intros Hwf Hi Hj. unfold first_stuck.
  induction numbers as [|nr rest IH]; [done|]. cbn [scan_numbers list_find].
  rewrite can_be_placed_elsewhere_wf, bind_Ret by done.
  destruct (elsewhere poss i j nr) eqn:Hnr; simpl.
  - rewrite IH. by destruct (list_find _ rest) as [[??]|].
  - done.
Qed.

Lemma steps_at_wf poss i j :
  wf_table poss → (i < 9)%nat → (j < 9)%nat →
  steps_at i j poss = Ret (cell_steps poss (i, j)).
Proof.
  intros Hwf Hi Hj. unfold steps_at, cell_steps.
  destruct (index_cell poss i j Hwf Hi Hj) as (row & -> & Hrow & _).
  rewrite bind_Ret, Hrow, bind_Ret. destruct (decide _).
  - by destruct (set_iter _).
  - by apply scan_numbers_wf.
Qed.

Lemma join_tabulated {A} (f : nat → nat → list A) (l1 l2 : list nat) :
  mjoin ((λ i, mjoin ((λ j, f i j) <$> l2)) <$> l1)
  = (l1 ≫= λ i, l2 ≫= λ j, [(i, j)]) ≫= (λ p, f p.1 p.2).
Proof.
  induction l1 as [|i l1 IH]; csimpl; [done|].
  rewrite bind_app, IH. f_equal. clear IH.
  induction l2 as [|j l2 IH2]; csimpl; [done|]. by rewrite IH2.
Qed.

End propagator.

Lemma find_next_steps_wf g : wf_table g → find_next_steps g = Ret (batch g).
Proof.
  intros Hwf. unfold find_next_steps.
  rewrite get_possibilities_wf, bind_Ret by done.
  set (poss := tabulate (entry g)).
  rewrite (for_each_Ret _ (λ i, mjoin ((λ j, cell_steps poss (i, j)) <$> seq 0 9))).
  - rewrite bind_Ret. f_equal.
    apply (join_tabulated (λ i j, cell_steps poss (i, j))).
  - intros i Hi%elem_of_seq.
    rewrite (for_each_Ret _ (λ j, cell_steps poss (i, j))); [done|].
    intros j Hj%elem_of_seq. apply steps_at_wf; [apply tabulate_wf|lia..].
Qed.

(** ** What a batch contains *)

Lemma NoDup_cells : NoDup cells.
Proof. apply (bool_decide_unpack (NoDup cells)). vm_compute. exact I. Qed.

Lemma cell_steps_inv poss p s :
  s ∈ cell_steps poss p →
  ∃ nr, s = (p.1, p.2, nr) ∧ nr ∈ cell poss p ∧ 1 ≤ nr ≤ 9.
Proof.
  unfold cell_steps, first_stuck. simpl. destruct (decide _) as [Hone|Hmore].
  - destruct (set_iter (cell poss p)) as [|nr rest] eqn:Hiter;
      [by intros ?%elem_of_nil|].
    intros ->%list_elem_of_singleton. exists nr. split; [done|].
    apply elem_of_set_iter. rewrite Hiter. by left.
  - destruct (list_find _ _) as [[k nr]|] eqn:Hfind; [|by intros ?%elem_of_nil].
    intros ->%list_elem_of_singleton. exists nr. split; [done|].
    apply list_find_Some in Hfind as (Hk & _ & _).
    apply elem_of_set_iter. by eapply list_elem_of_lookup_2.
Qed.

Lemma cell_steps_short poss p : (length (cell_steps poss p) ≤ 1)%nat.
Proof.
  unfold cell_steps, first_stuck. simpl.
  destruct (decide _); [destruct (set_iter _); simpl; lia|].
  destruct (list_find _ _) as [[??]|]; simpl; lia.
Qed.

Lemma elem_of_batch g s :
  s ∈ batch g ↔ ∃ p, p ∈ cells ∧ s ∈ cell_steps (tabulate (entry g)) p.
Proof. unfold batch. rewrite list_elem_of_bind. naive_solver. Qed.

Lemma fmap_bind_list {A B C} (h : B → C) (f : A → list B) (l : list A) :
  h <$> (l ≫= f) = l ≫= (λ x, h <$> f x).
Proof.
  induction l as [|x l IH]; csimpl; [done|]. by rewrite fmap_app, IH.
Qed.

Lemma filter_all {A} (P : A → Prop) `{∀ x, Decision (P x)} (l : list A) :
  (∀ x, x ∈ l → P x) → filter P l = l.
Proof.
  induction l as [|x l IH]; intros HP; [done|].
  rewrite filter_cons_True by (apply HP; left). f_equal.
  apply IH. intros y Hy. apply HP. by right.
Qed.

Lemma filter_none {A} (P : A → Prop) `{∀ x, Decision (P x)} (l : list A) :
  (∀ x, x ∈ l → ¬ P x) → filter P l = [].
Proof.
  induction l as [|x l IH]; intros HP; [done|].
  rewrite filter_cons_False by (apply HP; left).
  apply IH. intros y Hy. apply HP. by right.
Qed.

Lemma filter_bind_fst {A B} `{EqDecision A} (f : A → list (A * B)) (l : list A) x :
  NoDup l → x ∈ l → (∀ y s, s ∈ f y → s.1 = y) →
  filter (λ s, s.1 = x) (l ≫= f) = f x.
Proof.
  intros Hnd Hx Hf.
  assert (∀ k, x ∉ k → filter (λ s, s.1 = x) (k ≫= f) = []) as Hout.
  { intros k Hk. apply filter_none.
    intros s (y & Hs & Hy)%list_elem_of_bind Hsx.
    apply Hf in Hs. congruence. }
  induction Hnd as [|a l Ha Hnd IH]; [by apply elem_of_nil in Hx|].
  rewrite bind_cons, filter_app. apply elem_of_cons in Hx as [->|Hx].
  - rewrite Hout by done. rewrite app_nil_r. apply filter_all.
    intros s Hs. by apply Hf.
  - rewrite IH by done. rewrite filter_none; [done|].
    intros s Hs%Hf ?. congruence.
Qed.

Lemma cell_steps_fst poss p s : s ∈ cell_steps poss p → s.1 = p.
Proof. intros (nr & -> & _)%cell_steps_inv. by destruct p. Qed.

Lemma NoDup_batch_cells g : NoDup ((λ s : step, s.1) <$> batch g).
Proof.
  unfold batch. rewrite fmap_bind_list.
  apply NoDup_bind; [| |apply NoDup_cells].
  - intros p q c _ _ (s & -> & Hs)%list_elem_of_fmap (t & Hst & Ht)%list_elem_of_fmap.
    apply cell_steps_fst in Hs, Ht. congruence.
  - intros p _.
    pose proof (cell_steps_short (tabulate (entry g)) p) as Hlen.
    destruct (cell_steps _ p) as [|s [|t k]]; simpl in *; try lia.
    + constructor.
    + apply NoDup_singleton.
Qed.

(** * The batch of one pass *)

(** C7.  The steps returned by one call of [find_next_steps] on a 9×9 grid
    target pairwise different cells: no two steps of the batch have the same
    (row, column). *)
Theorem batch_one_step_per_cell (g : grid) :
  wf_table g →
  ∃ steps, find_next_steps g = Ret steps ∧ NoDup ((λ s : step, s.1) <$> steps).
Proof.
  intros Hwf. exists (batch g).
  split; [by apply find_next_steps_wf|apply NoDup_batch_cells].
Qed.

(** C2.  With [poss] the candidate table of a 9×9 grid: the check
    [can_be_placed_elsewhere i j nr poss] is true exactly when [nr] is a
    candidate of another cell of column [j], and of another cell of row [i],
    and of another cell of the box of [(i, j)]; and for an empty cell with
    more than one candidate, the steps of the batch for that cell are the
    single step for the first candidate, in iteration order, on which the
    check is false, or none when there is no such candidate. *)
Theorem hidden_single_rule (g : grid) (i j : nat) :
  wf_table g → (i < 9)%nat → (j < 9)%nat →
  ∃ poss steps,
    get_possibilities g = Ret poss ∧ find_next_steps g = Ret steps ∧
    (∀ nr, ∃ b : bool,
       can_be_placed_elsewhere i j nr poss = Ret b ∧
       (b = true ↔
          (∃ p, p ∈ col_cells j ∧ p ≠ (i, j) ∧ nr ∈ cell poss p)
          ∧ (∃ p, p ∈ row_cells i ∧ p ≠ (i, j) ∧ nr ∈ cell poss p)
          ∧ (∃ p, p ∈ box_cells i j ∧ p ≠ (i, j) ∧ nr ∈ cell poss p))) ∧
    (cell g (i, j) ∉ ref → (1 < size (cell poss (i, j)))%nat →
     filter (λ s : step, s.1 = (i, j)) steps =
       match list_find (λ nr, can_be_placed_elsewhere i j nr poss = Ret false)
               (set_iter (cell poss (i, j))) with
       | Some (_, nr) => [(i, j, nr)]
       | None => []
       end).
Proof.
  intros Hwf Hi Hj. exists (tabulate (entry g)), (batch g).
  pose proof (tabulate_wf (entry g)) as Hposs.
  split_and!; [by apply get_possibilities_wf|by apply find_next_steps_wf| |].
  - intros nr. exists (elsewhere (tabulate (entry g)) i j nr).
    split; [by apply can_be_placed_elsewhere_wf|by apply elsewhere_true].
  - intros _ Hsize. unfold batch.
    rewrite (filter_bind_fst _ cells (i, j));
      [|apply NoDup_cells|by apply elem_of_cells|apply cell_steps_fst].
    unfold cell_steps, first_stuck. simpl. rewrite decide_False by lia.
    erewrite list_find_ext; [done|]. intros nr. simpl.
    rewrite can_be_placed_elsewhere_wf by done.
    split; [by intros ->|by intros [= ->]].
Qed.

(** * Writing into a 9×9 grid *)

(** A property of every value of a 9×9 grid is a property of every cell. *)
Lemma Forall_cells (P : Z → Prop) (g : grid) :
  wf_table g →
  Forall (Forall P) g ↔ ∀ p, p ∈ cells → P (cell g p).
Proof.
  intros Hwf.
  assert (Forall (Forall P) g
          ↔ Forall (Forall P) (vals g <$> (row_cells <$> seq 0 9))) as ->.
  { by rewrite <-(rows_wf g Hwf). }
  rewrite !Forall_fmap, Forall_seq. unfold compose, vals, row_cells.
  setoid_rewrite Forall_fmap. setoid_rewrite Forall_fmap.
  setoid_rewrite Forall_seq. unfold compose. split.
  - intros Hall [i j] [Hi Hj]%elem_of_cells. apply Hall; lia.
  - intros Hall i Hi j Hj. apply Hall, elem_of_cells. lia.
Qed.

(** Two 9×9 grids with the same cells are the same grid. *)
Lemma grid_ext (g g' : grid) :
  wf_table g → wf_table g' →
  (∀ p, p ∈ cells → cell g p = cell g' p) → g = g'.
Proof.
  intros Hwf Hwf' Heq. rewrite (rows_wf g Hwf), (rows_wf g' Hwf').
  apply list_fmap_ext. intros k u (i & -> & [-> Hi]%lookup_seq)%list_lookup_fmap_Some.
  apply list_fmap_ext. intros k' p (j & -> & [-> Hj]%lookup_seq)%list_lookup_fmap_Some.
  apply Heq, elem_of_cells. lia.
Qed.

Lemma set_cell_wf (g : grid) i j v :
  wf_table g → (i < 9)%nat → (j < 9)%nat →
  ∃ g', set_cell g i j v = Ret g' ∧ wf_table g' ∧ cell g' (i, j) = v
        ∧ ∀ p, p ≠ (i, j) → cell g' p = cell g p.
Proof.
  intros Hwf Hi Hj. unfold set_cell.
  destruct (index_cell g i j Hwf Hi Hj) as (row & -> & _ & Hrow & Hlen).
  rewrite bind_Ret, decide_True by lia. eexists. split; [done|].
  destruct Hwf as [Hg Hrows]. split_and!.
  - split; [by rewrite length_insert|].
    apply Forall_insert; [done|]. by rewrite length_insert.
  - unfold cell. simpl. rewrite list_lookup_total_insert_eq by lia.
    apply list_lookup_total_insert_eq. lia.
  - intros [a b] Hne. unfold cell. simpl.
    destruct (decide (a = i)) as [->|Ha].
    + rewrite list_lookup_total_insert_eq by lia.
      rewrite list_lookup_total_insert_ne by congruence.
      by rewrite (list_lookup_total_correct g i row).
    + by rewrite list_lookup_total_insert_ne.
Qed.

Lemma perform_steps_wf (steps : list step) (g : grid) :
  wf_table g → (∀ s, s ∈ steps → s.1 ∈ cells) →
  ∃ g', perform_steps steps g = Ret g' ∧ wf_table g'
        ∧ ∀ p, (p ∉ (λ s : step, s.1) <$> steps) ∧ cell g' p = cell g p
               ∨ (∃ nr, (p, nr) ∈ steps ∧ cell g' p = nr).
Proof.
  revert g. induction steps as [|[[i j] nr] rest IH]; intros g Hwf Hin.
  { exists g. split_and!; [done..|]. intros p. left. split; [|done].
    by intros ?%elem_of_nil. }
  assert ((i, j) ∈ cells) as [Hi Hj]%elem_of_cells by (apply (Hin (i, j, nr)); left).
  destruct (set_cell_wf g i j nr Hwf Hi Hj) as (g1 & Hset & Hwf1 & Hnew & Hold).
  destruct (IH g1 Hwf1) as (g' & Hrun & Hwf' & Hcells).
  { intros s Hs. apply Hin. by right. }
  exists g'. cbn [perform_steps]. rewrite Hset, bind_Ret. split_and!; [done..|].
  intros p. destruct (Hcells p) as [[Hp Heq]|(nr' & Hnr' & Heq)].
  - destruct (decide (p = (i, j))) as [->|Hne].
    + right. exists nr. split; [left|congruence].
    + left. split; [|by rewrite Heq, Hold].
      rewrite fmap_cons. simpl. by intros [?|?]%elem_of_cons.
  - right. exists nr'. split; [by right|done].
Qed.

(** * One pass of the propagator *)

Lemma empties_bound g : (empties g ≤ 81)%nat.
Proof. unfold empties. etrans; [apply length_filter|exact (le_n 81)]. Qed.

Lemma filter_length_lt {A} (P Q : A → Prop)
    `{∀ x, Decision (P x)} `{∀ x, Decision (Q x)} (l : list A) x :
  (∀ y, y ∈ l → Q y → P y) → x ∈ l → P x → ¬ Q x →
  (length (filter Q l) < length (filter P l))%nat.
Proof.
  intros HQP Hx HPx HQx.
  assert (∀ k : list A, (∀ y, y ∈ k → Q y → P y) →
            (length (filter Q k) ≤ length (filter P k))%nat) as Hle.
  { induction k as [|y k IH]; intros Hk; [done|].
    rewrite !filter_cons.
    assert (length (filter Q k) ≤ length (filter P k))%nat
      by (apply IH; intros; apply Hk; [by right|done]).
    destruct (decide (Q y)) as [HQ|HQ].
    - rewrite decide_True by (apply Hk; [left|done]). simpl. lia.
    - destruct (decide (P y)); simpl; lia. }
  induction l as [|y l IH]; [by apply elem_of_nil in Hx|].
  rewrite !filter_cons. apply elem_of_cons in Hx as [->|Hx].
  - destruct (decide (Q _)); [done|]. destruct (decide (P _)); [|done]. simpl.
    apply Nat.lt_succ_r, Hle. intros; apply HQP; [by right|done].
  - assert (length (filter Q l) < length (filter P l))%nat
      by (apply IH; [intros; apply HQP; [by right|done]|done]).
    destruct (decide (Q y)) as [HQ|HQ].
    + rewrite decide_True by (apply HQP; [left|done]). simpl. lia.
    + destruct (decide (P y)); simpl; lia.
Qed.

(** What the batch says about the grid it was computed from. *)
Lemma batch_inv g p nr :
  (p, nr) ∈ batch g →
  p ∈ cells ∧ (cell g p ∉ ref) ∧ nr ∈ candidates g p.1 p.2 ∧ 1 ≤ nr ≤ 9.
Proof.
  intros (q & Hq & Hs)%elem_of_batch.
  apply cell_steps_inv in Hs as (nr' & [= Hp ->] & Hnr & Hrange).
  destruct q as [i j]. simpl in Hp. subst p. split; [done|].
  apply elem_of_cells in Hq as [Hi Hj].
  rewrite cell_tabulate in Hnr by done. unfold entry in Hnr.
  destruct (decide _); [done|]. by apply not_elem_of_empty in Hnr.
Qed.

Lemma pass_exists g : wf_table g → batch g ≠ [] → ∃ g', pass g g'.
Proof.
  intros Hwf Hne. destruct (perform_steps_wf (batch g) g Hwf) as (g' & Hrun & _).
  { intros [p nr] Hs. by apply batch_inv in Hs as (? & _). }
  by exists g'.
Qed.

Lemma pass_cells g g' p :
  pass g g' →
  wf_table g' ∧
  (cell g' p = cell g p ∧ (p ∉ (λ s : step, s.1) <$> batch g)
   ∨ (p ∈ cells) ∧ (cell g p ∉ ref) ∧ (p, cell g' p) ∈ batch g
     ∧ cell g' p ∈ candidates g p.1 p.2 ∧ 1 ≤ cell g' p ≤ 9).
Proof.
  intros (Hwf & Hne & Hrun).
  destruct (perform_steps_wf (batch g) g Hwf) as (g1 & Hrun1 & Hwf1 & Hcells).
  { intros [q nr] Hs. by apply batch_inv in Hs as (? & _). }
  rewrite Hrun in Hrun1. injection Hrun1 as <-. split; [done|].
  destruct (Hcells p) as [[Hp Heq]|(nr & Hnr & Heq)]; [by left|right].
  subst nr. by pose proof (batch_inv _ _ _ Hnr) as (? & ? & ? & ?).
Qed.

Lemma pass_wf g g' : pass g g' → wf_table g'.
Proof. intros Hpass. by destruct (pass_cells g g' (0%nat, 0%nat) Hpass). Qed.

(** A pass leaves the digits of the grid in place. *)
Lemma pass_keeps g g' p : pass g g' → cell g p ∈ ref → cell g' p = cell g p.
Proof.
  intros Hpass Hfilled.
  destruct (pass_cells g g' p Hpass) as [_ [[? _]|(_ & Hempty & _)]]; done.
Qed.

Lemma pass_range g g' :
  pass g g' → Forall (Forall (λ v, 0 ≤ v ≤ 9)) g → Forall (Forall (λ v, 0 ≤ v ≤ 9)) g'.
Proof.
  intros Hpass. pose proof Hpass as (Hwf & _).
  rewrite !Forall_cells by eauto using pass_wf. intros Hg p Hp.
  destruct (pass_cells g g' p Hpass) as [_ [[-> _]|(_ & _ & _ & _ & ?)]];
    [by apply Hg|lia].
Qed.

Lemma pass_empties g g' : pass g g' → (empties g' < empties g)%nat.
Proof.
  intros Hpass. pose proof Hpass as (Hwf & Hne & _).
  destruct (batch g) as [|[p nr] rest] eqn:Hbatch; [done|].
  assert ((p, nr) ∈ batch g) as Hin by (rewrite Hbatch; left).
  apply batch_inv in Hin as Hinv. destruct Hinv as (Hp & Hempty & _).
  unfold empties. apply (filter_length_lt _ _ cells p); [|done..|].
  - intros q _ Hq Hfilled. apply Hq. by rewrite (pass_keeps g g' q Hpass).
  - destruct (pass_cells g g' p Hpass) as [_ [[_ Hout]|(_ & _ & _ & _ & Hr)]].
    + destruct Hout. apply list_elem_of_fmap. by exists (p, nr).
    + intros Hnot. apply Hnot, elem_of_ref, Hr.
Qed.

(** * The loop of [solve] *)

Lemma passes_wf g g' : rtc pass g g' → wf_table g → wf_table g'.
Proof. induction 1 as [|g g1 g' Hpass _ IH]; [done|]. eauto using pass_wf. Qed.

Lemma passes_range g g' : rtc pass g g' → in_range g → in_range g'.
Proof.
  induction 1 as [|g g1 g' Hpass _ IH]; [done|]. intros Hr.
  apply IH. by eapply pass_range.
Qed.

Lemma passes_keep g g' p : rtc pass g g' → cell g p ∈ ref → cell g' p = cell g p.
Proof.
  induction 1 as [|g g1 g' Hpass _ IH]; [done|]. intros Hfilled.
  pose proof (pass_keeps g g1 p Hpass Hfilled) as Heq.
  rewrite IH by (by rewrite Heq). done.
Qed.

(** With more fuel than the grid has empty cells the loop ends: it has run
    [n] times, the last time on a grid [g'] with an empty batch. *)
Lemma solve_loop_runs fuel step_counter g :
  wf_table g → (empties g < fuel)%nat →
  ∃ n g', solve_loop fuel step_counter g = Ret ((step_counter + n)%nat, g')
          ∧ (1 ≤ n ≤ empties g + 1)%nat ∧ rtc pass g g' ∧ batch g' = [].
Proof.
  revert step_counter g.
  induction fuel as [|fuel IH]; intros c g Hwf Hfuel; [lia|].
  cbn [solve_loop]. rewrite find_next_steps_wf, bind_Ret by done. cbv beta zeta.
  destruct (decide (length (batch g) = 0%nat)) as [Hnil%nil_length_inv|Hcons].
  - exists 1%nat, g. split_and!; [done|lia|lia|done|done].
  - assert (batch g ≠ []) as Hne by (intros Heq; by rewrite Heq in Hcons).
    destruct (pass_exists g Hwf Hne) as [g1 Hpass].
    pose proof Hpass as (_ & _ & Hrun1).
    pose proof (pass_empties g g1 Hpass).
    destruct (IH (c + 1)%nat g1) as (n & g' & Hrun & Hn & Hpasses & Hend);
      [by eapply pass_wf|lia|].
    exists (S n), g'. split_and!; [|lia|lia|by eapply rtc_l|done].
    rewrite Hrun1, bind_Ret, Hrun. do 2 f_equal. lia.
Qed.

(** C9.  On a 9×9 grid every step [(i, j, nr)] of the batch targets an empty
    cell with a digit of 1 to 9 taken from the candidate set of that cell;
    applying a non-empty batch strictly lowers the number of empty cells and
    keeps the values inside [0, 9]; and the loop of [solve] ends after at
    most 82 iterations, on a 9×9 grid whose values are inside [0, 9] when
    they were at the start. *)
Theorem propagation_terminates (g : grid) :
  wf_table g →
  ∃ steps,
    find_next_steps g = Ret steps ∧
    (∀ i j nr, (i, j, nr) ∈ steps →
       (i < 9)%nat ∧ (j < 9)%nat ∧ (cell g (i, j) ∉ ref) ∧ 1 ≤ nr ≤ 9 ∧
       ∃ poss, get_possibilities g = Ret poss ∧ nr ∈ cell poss (i, j)) ∧
    (steps ≠ [] →
       ∃ g', perform_steps steps g = Ret g' ∧ wf_table g'
             ∧ (empties g' < empties g)%nat ∧ (in_range g → in_range g')) ∧
    (∀ fuel, (82 ≤ fuel)%nat →
       ∃ n g', solve_loop fuel 0 g = Ret (n, g') ∧ (n ≤ 82)%nat
               ∧ wf_table g' ∧ (in_range g → in_range g')).
Proof.
  intros Hwf. exists (batch g). split_and!; [by apply find_next_steps_wf| | |].
  - intros i j nr Hs.
    pose proof (batch_inv g (i, j) nr Hs) as ([Hi Hj]%elem_of_cells & He & Hc & Hr).
    split_and!; try done; try lia. exists (tabulate (entry g)).
    split; [by apply get_possibilities_wf|].
    rewrite cell_tabulate by done. unfold entry. by rewrite decide_True.
  - intros Hne. destruct (pass_exists g Hwf Hne) as [g' Hpass].
    exists g'. split_and!;
      [by destruct Hpass as (_ & _ & ?)|by eapply pass_wf
      |by apply pass_empties|by apply pass_range].
  - intros fuel Hfuel. pose proof (empties_bound g).
    destruct (solve_loop_runs fuel 0 g Hwf) as (n & g' & Hrun & Hn & Hpasses & _);
      [lia|].
    exists n, g'. split_and!; [done|lia|by eapply passes_wf|by apply passes_range].
Qed.

(** * Completions *)

Lemma row_cells_cells i q : (i < 9)%nat → q ∈ row_cells i → q ∈ cells.
Proof.
  intros Hi (k & -> & Hk%elem_of_seq)%list_elem_of_fmap. apply elem_of_cells. lia.
Qed.

Lemma col_cells_cells j q : (j < 9)%nat → q ∈ col_cells j → q ∈ cells.
Proof.
  intros Hj (k & -> & Hk%elem_of_seq)%list_elem_of_fmap. apply elem_of_cells. lia.
Qed.

Lemma box_cells_cells i j q :
  (i < 9)%nat → (j < 9)%nat → q ∈ box_cells i j → q ∈ cells.
Proof.
  intros Hi Hj (k & -> & Hk%elem_of_seq)%list_elem_of_fmap. apply elem_of_cells.
  assert (k < 9)%nat as Hk9 by lia. clear Hk.
  cases9 i Hi; cases9 j Hj; cases9 k Hk9; simpl; lia.
Qed.

Section units.
Context (i j : nat) (Hi : (i < 9)%nat) (Hj : (j < 9)%nat).
Context (u : list (nat * nat)) (idx : nat) (Hu : unit_of i j u idx).

Lemma unit_of_lookup : u !! idx = Some (i, j).
Proof.
  destruct Hu; auto using lookup_col_cells, lookup_row_cells, lookup_box_cells.
Qed.

Lemma unit_of_elem : (i, j) ∈ u.
Proof. eapply list_elem_of_lookup_2, unit_of_lookup. Qed.

Lemma unit_of_NoDup : NoDup u.
Proof.
  destruct Hu; auto using NoDup_col_cells, NoDup_row_cells, NoDup_box_cells.
Qed.

Lemma unit_of_cells q : q ∈ u → q ∈ cells.
Proof.
  destruct Hu; eauto using col_cells_cells, row_cells_cells, box_cells_cells.
Qed.

Lemma unit_of_solution S : solution S → unit_ok S u.
Proof.
  destruct Hu; auto using solution_col, solution_row, solution_box.
Qed.

Lemma unit_of_candidates g nr : nr ∈ candidates g i j → nr ∉ vals g u.
Proof.
  intros (_ & Hr & Hc & Hb)%elem_of_candidates. by destruct Hu.
Qed.

(** A completion puts at an empty cell a digit that no cell of the unit
    holds in [g]. *)
Lemma completion_fresh g S :
  completion g S → cell g (i, j) ∉ ref → cell S (i, j) ∉ vals g u.
Proof.
  intros [HS Hext] Hempty (q & Heq & Hq)%list_elem_of_fmap.
  pose proof (solution_filled S i j HS Hi Hj) as Hfilled%elem_of_ref.
  assert (cell S q = cell g q) as HSq.
  { apply Hext; [by apply unit_of_cells|]. by rewrite <-Heq. }
  assert (q = (i, j)) as ->.
  { eapply (unit_ok_inj S u); [by apply unit_of_solution|done|apply unit_of_elem|].
    congruence. }
  apply Hempty. by rewrite <-HSq.
Qed.
End units.

Lemma candidate_of_completion g S i j :
  (i < 9)%nat → (j < 9)%nat → completion g S → cell g (i, j) ∉ ref →
  cell S (i, j) ∈ candidates g i j.
Proof.
  intros Hi Hj Hcomp Hempty. apply elem_of_candidates.
  split; [|split; [|split]].
  - apply (solution_filled S i j); [by destruct Hcomp|done..].
  - eapply completion_fresh; eauto using unit_row.
  - eapply completion_fresh; eauto using unit_col.
  - eapply completion_fresh; eauto using unit_box.
Qed.

(** Every completion has, at a cell other than [(i, j)], a digit that is
    either in [g] already or among the candidates of that cell: its digit
    is then in the candidate table, unless [g] holds it in the unit. *)
Lemma hidden_single_sound g S i j u idx nr :
  (i < 9)%nat → (j < 9)%nat → unit_of i j u idx →
  completion g S → nr ∈ candidates g i j →
  other_contains (vals (tabulate (entry g)) u) idx nr = false →
  cell S (i, j) = nr.
Proof.
  intros Hi Hj Hu Hcomp Hnr Hother.
  pose proof Hnr as (Hrange & _)%elem_of_candidates.
  destruct (unit_ok_surj S u nr) as (q & Hq & HSq);
    [by eapply unit_of_solution; [| |done|destruct Hcomp]|done|].
  destruct (decide (q = (i, j))) as [->|Hne]; [done|]. exfalso.
  pose proof (unit_of_cells i j Hi Hj u idx Hu q Hq) as Hqc.
  destruct q as [a b]. apply elem_of_cells in Hqc as Hab. destruct Hab as [Ha Hb].
  destruct (decide (cell g (a, b) ∈ ref)) as [Hfilled|Hempty].
  - apply (unit_of_candidates i j u idx Hu g nr Hnr).
    apply list_elem_of_fmap. exists (a, b). split; [|done].
    destruct Hcomp as [_ Hext]. by rewrite <-(Hext (a, b)).
  - assert (other_contains (vals (tabulate (entry g)) u) idx nr = true) as Htrue;
      [|by rewrite Htrue in Hother].
    apply (other_contains_unit _ u idx (i, j));
      [by eapply unit_of_NoDup|by eapply unit_of_lookup|].
    exists (a, b). split_and!; [done..|].
    rewrite cell_tabulate by done. unfold entry. rewrite decide_True by done.
    rewrite <-HSq. by apply candidate_of_completion.
Qed.

(** Every step of the batch writes the digit that every completion has at
    that cell. *)
Lemma step_sound g S p nr :
  wf_table g → completion g S → (p, nr) ∈ batch g → cell S p = nr.
Proof.
  intros Hwf Hcomp Hs.
  pose proof (batch_inv g p nr Hs) as (Hp & Hempty & Hnr & Hrange).
  apply elem_of_batch in Hs as (q & Hq & Hs).
  pose proof (cell_steps_fst _ _ _ Hs) as Hpq. simpl in Hpq. subst q.
  destruct p as [i j]. apply elem_of_cells in Hp as [Hi Hj].
  pose proof (candidate_of_completion g S i j Hi Hj Hcomp Hempty) as HS.
  unfold cell_steps, first_stuck in Hs. rewrite cell_tabulate in Hs by done.
  simpl in Hs, Hnr.
  replace (entry g i j) with (candidates g i j) in Hs
    by (unfold entry; by rewrite decide_True).
  destruct (decide _) as [Hone|Hmore].
  - by apply (size_singleton_inv (candidates g i j)).
  - destruct (list_find _ _) as [[k nr']|] eqn:Hfind; [|by apply elem_of_nil in Hs].
    apply list_elem_of_singleton in Hs as [= <-].
    apply list_find_Some in Hfind as (_ & Hstuck & _). unfold elsewhere in Hstuck.
    apply andb_false_iff in Hstuck as [[Hc|Hr]%andb_false_iff|Hb].
    + eapply hidden_single_sound; eauto using unit_col.
    + eapply hidden_single_sound; eauto using unit_row.
    + eapply hidden_single_sound; eauto using unit_box.
Qed.

Lemma pass_sound g g' S : pass g g' → completion g S → completion g' S.
Proof.
  intros Hpass [HS Hext]. split; [done|]. intros p Hp Hfilled.
  destruct (pass_cells g g' p Hpass) as [_ [[Heq _]|(_ & _ & Hs & _)]].
  - rewrite Heq in *. by apply Hext.
  - destruct Hpass as (Hwf & _). by apply (step_sound g S p).
Qed.

Lemma passes_sound g g' S : rtc pass g g' → completion g S → completion g' S.
Proof. induction 1; eauto using pass_sound. Qed.

(** * Backtracking search *)

Lemma in_range_cells g :
  wf_table g → in_range g ↔ ∀ p, p ∈ cells → 0 ≤ cell g p ≤ 9.
Proof. intros Hwf. by apply Forall_cells. Qed.

Lemma next_step_from_spec g (l : list (nat * nat)) :
  wf_table g → (∀ p, p ∈ l → p ∈ cells) →
  next_step_from l g = Ret None ∧ (∀ p, p ∈ l → cell g p ∈ ref)
  ∨ ∃ i j, (i < 9)%nat ∧ (j < 9)%nat ∧ (cell g (i, j) ∉ ref)
           ∧ next_step_from l g = Ret (Some (i, j, candidates g i j)).
Proof.
  intros Hwf. induction l as [|[i j] l IH]; intros Hl.
  { left. split; [done|]. by intros p ?%elem_of_nil. }
  assert ((i, j) ∈ cells) as [Hi Hj]%elem_of_cells by (apply Hl; left).
  cbn [next_step_from].
  destruct (index_cell g i j Hwf Hi Hj) as (row & -> & Hrow & _).
  rewrite bind_Ret, Hrow, bind_Ret.
  destruct (decide (cell g (i, j) ∉ ref)) as [Hempty|Hfilled].
  - right. exists i, j. split_and!; [done..|].
    by rewrite get_possible_values_wf, bind_Ret by done.
  - destruct IH as [[-> Hall]|(a & b & ? & ? & ? & ->)].
    + intros p Hp. apply Hl. by right.
    + left. split; [done|]. intros p [->|Hp]%elem_of_cons; [|by apply Hall].
      by apply dec_stable.
    + right. by exists a, b.
Qed.

Lemma next_step_spec g :
  wf_table g →
  next_step g = Ret None ∧ (∀ p, p ∈ cells → cell g p ∈ ref)
  ∨ ∃ i j, (i < 9)%nat ∧ (j < 9)%nat ∧ (cell g (i, j) ∉ ref)
           ∧ next_step g = Ret (Some (i, j, candidates g i j)).
Proof. intros Hwf. by apply next_step_from_spec. Qed.

(** Writing a digit into an empty cell leaves fewer empty cells. *)
Lemma empties_fill g g1 p :
  p ∈ cells → cell g p ∉ ref → cell g1 p ∈ ref →
  (∀ q, q ≠ p → cell g1 q = cell g q) →
  (empties g1 < empties g)%nat.
Proof.
  intros Hp Hempty Hfilled Hoff. unfold empties.
  apply (filter_length_lt _ _ cells p); [|done|done|by intros ?].
  intros q _ Hq. destruct (decide (q = p)) as [->|Hne]; [done|].
  by rewrite <-(Hoff q Hne).
Qed.

Lemma empties_zero g : (∀ p, p ∈ cells → cell g p ∈ ref) → empties g = 0%nat.
Proof.
  intros Hall. unfold empties. rewrite filter_none; [done|].
  intros p Hp Hempty. by apply Hempty, Hall.
Qed.

Section search.
Context (recurse : grid → outcome (bool * grid)) (bound : nat).
Context (Hrec : ∀ g, wf_table g → in_range g → (empties g < bound)%nat →
                     search_ok g (recurse g)).
Context (g : grid) (i j : nat).
Context (Hwf : wf_table g) (Hrange : in_range g).
Context (Hi : (i < 9)%nat) (Hj : (j < 9)%nat).
Context (Hempty : cell g (i, j) ∉ ref) (Hbound : (empties g ≤ bound)%nat).

Lemma try_numbers_spec (numbers : list Z) (gc : grid) :
  (∀ nr, nr ∈ numbers → 1 ≤ nr ≤ 9) →
  wf_table gc → (∀ q, q ≠ (i, j) → cell gc q = cell g q) →
  ∃ b g', try_numbers recurse i j numbers gc = Ret (b, g') ∧
    if b then completion g g'
    else wf_table g' ∧ cell g' (i, j) = 0
         ∧ (∀ q, q ≠ (i, j) → cell g' q = cell g q)
         ∧ ∀ S, completion g S → cell S (i, j) ∉ numbers.
Proof.
  revert gc. induction numbers as [|nr rest IH]; intros gc Hnum Hwfc Hoff.
  - destruct (set_cell_wf gc i j 0 Hwfc Hi Hj) as (g' & Hset & Hwf' & Hnew & Hold).
    exists false, g'. cbn [try_numbers]. rewrite Hset, bind_Ret.
    split_and!; [done..| |].
    + intros q Hq. by rewrite Hold, Hoff.
    + by intros S _ ?%elem_of_nil.
  - destruct (set_cell_wf gc i j nr Hwfc Hi Hj) as (g1 & Hset & Hwf1 & Hnew & Hold).
    assert (1 ≤ nr ≤ 9) as Hnr by (apply Hnum; left).
    assert (∀ q, q ≠ (i, j) → cell g1 q = cell g q) as Hoff1
      by (intros q Hq; by rewrite Hold, Hoff).
    assert (in_range g1) as Hrange1.
    { apply in_range_cells; [done|]. intros q Hq.
      destruct (decide (q = (i, j))) as [->|Hne]; [rewrite Hnew; lia|].
      rewrite Hoff1 by done. by apply (in_range_cells g). }
    assert (empties g1 < bound)%nat as Hlt.
    { eapply Nat.lt_le_trans; [|done].
      apply (empties_fill g g1 (i, j)); [by apply elem_of_cells|done| |done].
      rewrite Hnew. by apply elem_of_ref. }
    destruct (Hrec g1 Hwf1 Hrange1 Hlt) as (b & g2 & Hrun & Hres).
    cbn [try_numbers]. rewrite Hset, bind_Ret, Hrun, bind_Ret. simpl.
    destruct b.
    + exists true, g2. split; [done|]. destruct Hres as [HS Hext].
      split; [done|]. intros q Hq Hfilled.
      assert (q ≠ (i, j)) as Hne by (by intros ->).
      rewrite <-(Hoff1 q Hne). apply Hext; [done|]. by rewrite Hoff1.
    + destruct Hres as [-> Hnone].
      destruct (IH g1) as (b & g' & Hrest & Hres); [|done..|].
      { intros nr' Hnr'. apply Hnum. by right. }
      exists b, g'. split; [done|]. destruct b; [done|].
      destruct Hres as (Hwf' & Hzero & Hoff' & Hnot). split_and!; [done..|].
      intros S HS [Heq|Hin]%elem_of_cons; [|by apply (Hnot S)].
      apply Hnone. exists S. destruct HS as [HS Hext]. split; [done|].
      intros q Hq Hfilled. destruct (decide (q = (i, j))) as [->|Hne].
      * by rewrite Hnew.
      * rewrite Hoff1 in * by done. by apply Hext.
Qed.

(** The loop over the candidates of the first empty cell meets the
    obligation of the call it runs in. *)
Lemma try_numbers_ok :
  search_ok g (try_numbers recurse i j (set_iter (candidates g i j)) g).
Proof.
  destruct (try_numbers_spec (set_iter (candidates g i j)) g)
    as (b & g' & Hrun & Hres); [|done..|].
  { by intros nr [_ ?]%elem_of_set_iter. }
  exists b, g'. split; [done|]. destruct b; [done|].
  destruct Hres as (Hwf' & Hzero & Hoff & Hnot).
  assert (cell g (i, j) = 0) as Hz.
  { pose proof (proj1 (in_range_cells g Hwf) Hrange (i, j)) as Hr.
    rewrite elem_of_ref in Hempty.
    assert ((i, j) ∈ cells) as Hij by (by apply elem_of_cells).
    specialize (Hr Hij). lia. }
  split.
  - apply grid_ext; [done..|]. intros q Hq.
    destruct (decide (q = (i, j))) as [->|Hne]; [congruence|by apply Hoff].
  - intros [S HS]. apply (Hnot S HS). apply elem_of_set_iter.
    split; [by apply candidate_of_completion|].
    apply (solution_filled S i j); [by destruct HS|done..].
Qed.
End search.

Lemma try_combinations_ok fuel g :
  wf_table g → in_range g → (empties g < fuel)%nat →
  search_ok g (try_combinations fuel g).
Proof.
  revert g. induction fuel as [|fuel IH]; intros g Hwf Hrange Hfuel; [lia|].
  cbn [try_combinations].
  destruct (next_step_spec g Hwf) as [[-> Hfull]|(i & j & Hi & Hj & Hempty & ->)];
    rewrite bind_Ret.
  - exists (is_valid g), g. split; [done|].
    destruct (is_valid g) eqn:Hvalid.
    + split; [by split|]. by intros p _ _.
    + split; [done|]. intros (S & [HSwf HSvalid] & Hext).
      assert (S = g) as -> by (apply grid_ext; [done..|]; intros p Hp; auto).
      congruence.
  - apply (try_numbers_ok _ fuel); [done..|lia].
Qed.

(** * The entry point *)

(** Every run of [solve] on a well-formed grid, with fuel for 82 rounds:
    the loop ends on a grid [g1] reached by passes, and the result is [g1]
    itself when it is valid, and what [brute_force] makes of it otherwise. *)
Lemma solve_runs fuel g :
  well_formed g → (82 ≤ fuel)%nat →
  ∃ n g1 g2,
    solve_loop fuel 0 g = Ret (n, g1) ∧ rtc pass g g1 ∧ batch g1 = [] ∧
    solve fuel g = Ret (tt, g2) ∧
    (is_valid g1 = true ∧ g2 = g1
     ∨ is_valid g1 = false ∧ ∃ b, brute_force fuel g1 = Ret (b, g2) ∧
         if b then completion g1 g2 else g2 = g1 ∧ ¬ ∃ S, completion g1 S).
Proof.
  intros [Hwf Hrange] Hfuel. pose proof (empties_bound g).
  destruct (solve_loop_runs fuel 0 g Hwf) as (n & g1 & Hloop & Hn & Hpasses & Hend);
    [lia|].
  pose proof (passes_wf g g1 Hpasses Hwf) as Hwf1.
  pose proof (passes_range g g1 Hpasses Hrange) as Hrange1.
  pose proof (empties_bound g1).
  unfold solve. rewrite Hloop, bind_Ret. simpl.
  destruct (is_valid g1) eqn:Hvalid; simpl.
  - exists n, g1, g1. split_and!; [done..|]. by left.
  - destruct (try_combinations_ok fuel g1 Hwf1 Hrange1) as (b & g2 & Hrun & Hres);
      [lia|].
    unfold brute_force. rewrite Hrun, bind_Ret. simpl.
    exists n, g1, g2. split_and!; [done..|]. right. split; [done|]. by exists b.
Qed.

(** C1.  On a well-formed grid (9×9, values in [0, 9]) that has a valid
    completion, [solve] returns and leaves a grid on which [is_valid] is
    true (a completion of the grid it was given). *)
Theorem solve_solves (fuel : nat) (g : grid) :
  well_formed g → (∃ S, completion g S) → (82 ≤ fuel)%nat →
  ∃ g', solve fuel g = Ret (tt, g') ∧ is_valid g' = true ∧ extends g g'.
Proof.
  intros Hwf [S HS] Hfuel.
  destruct (solve_runs fuel g Hwf Hfuel)
    as (n & g1 & g2 & _ & Hpasses & _ & Hsolve & Hres).
  pose proof (passes_sound g g1 S Hpasses HS) as HS1.
  assert (extends g g1) as Hext1.
  { intros p _ Hfilled. by apply passes_keep. }
  exists g2. split; [done|].
  destruct Hres as [[Hvalid ->]|(_ & b & _ & Hres)]; [done|].
  destruct b; [|destruct Hres as [_ Hnone]; destruct Hnone; by exists S].
  destruct Hres as [[_ Hvalid] Hext2]. split; [done|].
  intros p Hp Hfilled. rewrite <-(Hext1 p Hp Hfilled).
  apply Hext2; [done|]. by rewrite (Hext1 p Hp Hfilled).
Qed.

(** C5.  On a well-formed grid [brute_force] returns, and when it returns
    [False] the grid is cell for cell the grid it was called on. *)
Theorem brute_force_restores (fuel : nat) (g : grid) :
  well_formed g → (82 ≤ fuel)%nat →
  ∃ b g', brute_force fuel g = Ret (b, g') ∧ (b = false → g' = g).
Proof.
  intros [Hwf Hrange] Hfuel. pose proof (empties_bound g).
  destruct (try_combinations_ok fuel g Hwf Hrange) as (b & g' & Hrun & Hres);
    [lia|].
  exists b, g'. split; [done|]. intros ->. by destruct Hres.
Qed.

(** C6, as the code has it.  On a well-formed grid without a valid
    completion [solve] returns its one value [None], as on every other
    grid; the grid it leaves is the grid the propagation loop ended on: the
    givens are in place, the digits written by propagation passes stay, and
    every digit tried by the search is reset.  [is_valid] is false on it. *)
Theorem solve_unsolvable (fuel : nat) (g : grid) :
  well_formed g → (¬ ∃ S, completion g S) → (82 ≤ fuel)%nat →
  ∃ n g1,
    solve_loop fuel 0 g = Ret (n, g1) ∧ solve fuel g = Ret (tt, g1) ∧
    is_valid g1 = false ∧ extends g g1.
Proof.
  intros Hwf Hnone Hfuel.
  destruct (solve_runs fuel g Hwf Hfuel)
    as (n & g1 & g2 & Hloop & Hpasses & _ & Hsolve & Hres).
  assert (extends g g1) as Hext1.
  { intros p _ Hfilled. by apply passes_keep. }
  assert (∀ S, completion g1 S → False) as Hnone1.
  { intros S [HS Hext]. apply Hnone. exists S. split; [done|].
    intros p Hp Hfilled. rewrite <-(Hext1 p Hp Hfilled).
    apply Hext; [done|]. by rewrite (Hext1 p Hp Hfilled). }
  exists n, g1. destruct Hres as [[Hvalid ->]|(Hvalid & b & _ & Hres)].
  - destruct (Hnone1 g1). split; [split; [|done]|by intros p _ _].
    destruct Hwf as [Hwf _]. by eapply passes_wf.
  - destruct b; [by destruct (Hnone1 g2)|]. by destruct Hres as [-> _].
Qed.

(** ** A solved grid *)

Lemma set_iter_empty : set_iter ∅ = [].
Proof.
  unfold set_iter. apply filter_none. intros d _ Hd. by apply not_elem_of_empty in Hd.
Qed.

Lemma batch_full g : (∀ p, p ∈ cells → cell g p ∈ ref) → batch g = [].
Proof.
  intros Hfull. unfold batch.
  assert (∀ l : list (nat * nat), (∀ p, p ∈ l → p ∈ cells) →
            l ≫= cell_steps (tabulate (entry g)) = []) as Hnil;
    [|by apply Hnil].
  induction l as [|[i j] l IH]; intros Hl; [done|].
  rewrite bind_cons, IH by (intros; apply Hl; by right).
  assert ((i, j) ∈ cells) as Hp by (apply Hl; left).
  apply elem_of_cells in Hp as Hij. destruct Hij as [Hi Hj].
  unfold cell_steps, first_stuck. rewrite cell_tabulate by done.
  unfold entry.
  destruct (decide (cell g (i, j) ∉ ref)) as [Hempty|_];
    [destruct Hempty; by apply Hfull|].
  rewrite size_empty, set_iter_empty. done.
Qed.

Lemma solution_full g p : solution g → p ∈ cells → cell g p ∈ ref.
Proof.
  intros Hg. destruct p as [i j]. intros [Hi Hj]%elem_of_cells.
  by apply elem_of_ref, solution_filled.
Qed.

Lemma solve_solved fuel g :
  solution g → (1 ≤ fuel)%nat → solve fuel g = Ret (tt, g).
Proof.
  intros Hg Hfuel. pose proof Hg as [Hwf Hvalid].
  destruct fuel as [|fuel]; [lia|]. unfold solve. cbn [solve_loop].
  rewrite find_next_steps_wf, bind_Ret by done. cbv beta zeta.
  rewrite batch_full by (intros p Hp; by apply solution_full).
  simpl. by rewrite Hvalid.
Qed.

Lemma solve_wf fuel g g' :
  well_formed g → (82 ≤ fuel)%nat → solve fuel g = Ret (tt, g') → wf_table g'.
Proof.
  intros Hwf Hfuel Hrun.
  destruct (solve_runs fuel g Hwf Hfuel)
    as (n & g1 & g2 & _ & Hpasses & _ & Hsolve & Hres).
  rewrite Hrun in Hsolve. injection Hsolve as <-.
  assert (wf_table g1) as Hwf1 by (destruct Hwf; by eapply passes_wf).
  destruct Hres as [[_ ->]|(_ & b & _ & Hres)]; [done|].
  destruct b; [by destruct Hres as [[? _] _]|by destruct Hres as [-> _]].
Qed.

(** C8.  On a fully filled 9×9 grid on which [is_valid] is true, [solve]
    returns with every cell as it was, so [is_valid] is true before and
    after; hence a second call of [solve], on a grid that a first call has
    solved, changes nothing. *)
Theorem solve_idempotent (fuel : nat) (g : grid) :
  (1 ≤ fuel)%nat →
  (wf_table g → is_valid g = true →
   ∃ g', solve fuel g = Ret (tt, g') ∧ g' = g ∧ is_valid g' = true) ∧
  (∀ fuel0 g0,
     well_formed g0 → (82 ≤ fuel0)%nat →
     solve fuel0 g0 = Ret (tt, g) → is_valid g = true →
     solve fuel g = Ret (tt, g)).
Proof.
  intros Hfuel. split.
  - intros Hwf Hvalid. exists g. split_and!; [|done..].
    by apply solve_solved.
  - intros fuel0 g0 Hwf0 Hfuel0 Hrun Hvalid. apply solve_solved; [|done].
    split; [|done]. by eapply solve_wf.
Qed.

(** * Loading and printing *)

Lemma str_int_digit v : 0 ≤ v ≤ 9 → str_int v = [digit_char v].
Proof. intros Hv. range_cases v Hc; reflexivity. Qed.

Lemma digit_char_is_digit v : 0 ≤ v ≤ 9 → is_digit (digit_char v).
Proof.
  intros Hv. range_cases v Hc; by_decide.
Qed.

Lemma parse_digit_char v : 0 ≤ v ≤ 9 → parse_elem (digit_char v) = v.
Proof. intros Hv. range_cases v Hc; by vm_compute. Qed.

Lemma parse_elem_range c : 0 ≤ parse_elem c ≤ 9.
Proof.
  unfold parse_elem, digit_chars. cbn [list_find].
  repeat (case_decide; [simpl; lia|]). simpl. lia.
Qed.

Lemma filter_digits_row (row : list Z) :
  Forall (λ v, 0 ≤ v ≤ 9) row →
  filter is_digit (print_row row) = digit_char <$> row.
Proof.
  intros Hrow. unfold print_row. rewrite !filter_app.
  replace (filter is_digit ["["%char]) with (@nil ascii) by (by vm_compute).
  replace (filter is_digit ["]"%char; "010"%char]) with (@nil ascii)
    by (by vm_compute).
  rewrite app_nil_l, app_nil_r.
  induction Hrow as [|v row Hv Hrow IH]; [done|].
  rewrite !fmap_cons, str_int_digit by done. destruct Hrow as [|w row Hw Hrow].
  - simpl. by rewrite filter_cons_True, filter_nil by (by apply digit_char_is_digit).
  - change (join_comma ([digit_char v] :: (str_int <$> w :: row)))
      with (digit_char v :: ","%char :: " "%char :: join_comma (str_int <$> w :: row)).
    rewrite filter_cons_True by (by apply digit_char_is_digit).
    rewrite !filter_cons_False by by_decide. by rewrite IH.
Qed.

Lemma filter_digits_print (g : grid) :
  in_range g →
  filter is_digit (print_sudoku g) = mjoin ((λ row, digit_char <$> row) <$> g).
Proof.
  intros Hg. unfold print_sudoku. rewrite filter_app.
  replace (filter is_digit ["010"%char]) with (@nil ascii) by (by vm_compute).
  rewrite app_nil_r. induction Hg as [|row g Hrow Hg IH]; [done|].
  rewrite !fmap_cons.
  change (mjoin (print_row row :: (print_row <$> g)))
    with (print_row row ++ mjoin (print_row <$> g)).
  by rewrite filter_app, filter_digits_row, IH.
Qed.

Lemma convert_rows (t : list (list ascii)) :
  wf_table t → convert_string_to_array (mjoin t) = t.
Proof. intros Hwf. explode_table t Hwf. reflexivity. Qed.

Lemma convert_81 (string : pystr) :
  length string = 81%nat → wf_table (convert_string_to_array string).
Proof.
  intros Hlen.
  do 81 (destruct string as [|? string]; [discriminate Hlen|]).
  destruct string; [|discriminate Hlen].
  split; [reflexivity|]. repeat constructor.
Qed.

Lemma load_well_formed (string : pystr) :
  length string = 81%nat → well_formed (load string).
Proof.
  intros [Hlen Hrows]%convert_81. unfold load, parse_sudoku. split.
  - split; [by rewrite length_fmap|].
    apply Forall_fmap. eapply Forall_impl; [done|].
    intros row Hrow. simpl. by rewrite length_fmap.
  - apply Forall_fmap, Forall_forall. intros row _. simpl.
    apply Forall_fmap, Forall_forall. intros c _. apply parse_elem_range.
Qed.

Lemma load_digits (g : grid) :
  well_formed g → load (mjoin ((λ row, digit_char <$> row) <$> g)) = g.
Proof.
  intros [[Hlen Hrows] Hrange]. unfold load. rewrite convert_rows.
  - unfold parse_sudoku. rewrite <-list_fmap_compose.
    clear Hlen Hrows. induction Hrange as [|row g Hrow _ IH]; [done|].
    rewrite fmap_cons, IH. f_equal. simpl. rewrite <-list_fmap_compose.
    clear IH. induction Hrow as [|v row Hv _ IH]; [done|].
    rewrite fmap_cons, IH. f_equal. unfold compose. by apply parse_digit_char.
  - split; [by rewrite length_fmap|].
    apply Forall_fmap. eapply Forall_impl; [exact Hrows|].
    intros row Hrow. simpl. by rewrite length_fmap.
Qed.

Lemma equality_refl (g : grid) : wf_table g → equality g g = Ret true.
Proof.
  intros Hwf. unfold equality.
  assert (∀ l : list (nat * nat), (∀ p, p ∈ l → p ∈ cells) →
            equality_from l g g = Ret true) as Hall; [|by apply Hall].
  induction l as [|[i j] l IH]; intros Hl; [done|].
  assert ((i, j) ∈ cells) as [Hi Hj]%elem_of_cells by (apply Hl; left).
  cbn [equality_from].
  destruct (index_cell g i j Hwf Hi Hj) as (row & -> & Hrow & _).
  repeat first [rewrite bind_Ret|rewrite Hrow].
  rewrite decide_False by (by intros ?).
  apply IH. intros p Hp. apply Hl. by right.
Qed.

(** C10, as the code has it.  For every puzzle string of 81 characters the
    loaded grid is well formed, and the digits of its rendering, read in
    order without the list punctuation around them, load to a grid equal
    (by [equality]) to the directly loaded one. *)
Theorem load_render_digits (string : pystr) :
  length string = 81%nat →
  well_formed (load string) ∧
  equality (load string)
           (load (filter is_digit (print_sudoku (load string)))) = Ret true.
Proof.
  intros Hlen. pose proof (load_well_formed string Hlen) as Hwf.
  split; [done|]. rewrite filter_digits_print by (by destruct Hwf).
  rewrite load_digits by done. apply equality_refl. by destruct Hwf.
Qed.

(** * Concrete runs *)

Example load_puzzle : load puzzle = zs.
Proof. by vm_compute. Qed.

Example first_batch :
  find_next_steps zs
  = Ret [(0%nat, 3%nat, 3); (1%nat, 4%nat, 7); (2%nat, 0%nat, 5);
         (2%nat, 5%nat, 2); (5%nat, 6%nat, 3); (6%nat, 2%nat, 9);
         (6%nat, 5%nat, 3); (7%nat, 0%nat, 6); (7%nat, 1%nat, 2);
         (7%nat, 4%nat, 4)].
Proof. by vm_compute. Qed.

(** [get_possible_values] is called on empty cells only.  On a filled cell
    it would return the digits absent from the row, the column and the box
    of the cell: here, at the 7 in the corner of the puzzle. *)
Example possible_values_at_given :
  get_possible_values 0 0 zs = Ret (list_to_set [2; 3; 9]).
Proof. by vm_compute. Qed.

Example solve_puzzle : solve 82 zs = Ret (tt, zs_solved).
Proof. by vm_compute. Qed.

Example propagation_alone : solve_loop 82 0 zs = Ret (8%nat, zs_solved).
Proof. by vm_compute. Qed.

Example search_alone : brute_force 82 zs = Ret (true, zs_solved).
Proof. by vm_compute. Qed.

Example search_dead_end : brute_force 82 dead_end = Ret (false, dead_end).
Proof. by vm_compute. Qed.

Example solve_bad : solve 82 bad = Ret (tt, bad_after).
Proof. by vm_compute. Qed.

Example render_puzzle :
  print_sudoku zs = list_ascii_of_string
"[7, 0, 0, 0, 5, 4, 0, 0, 1]
[0, 1, 0, 9, 0, 6, 0, 0, 0]
[0, 6, 4, 0, 0, 0, 0, 3, 9]
[0, 0, 0, 0, 3, 0, 5, 0, 0]
[0, 3, 0, 0, 2, 0, 0, 1, 0]
[0, 0, 6, 0, 9, 0, 0, 0, 0]
[8, 7, 0, 0, 0, 0, 2, 4, 0]
[0, 0, 0, 5, 0, 9, 0, 8, 0]
[4, 0, 0, 2, 8, 0, 0, 0, 3]

".
Proof. by vm_compute. Qed.

(** [bad] has no completion: a completion would put at row 0, column 0 one
    of the candidates of that cell, and there is none. *)
Lemma bad_no_completion : ¬ ∃ S, completion bad S.
Proof.
  intros [S HS].
  assert (cell S (0%nat, 0%nat) ∈ candidates bad 0 0) as Hin.
  { apply candidate_of_completion; [lia|lia|done|]. by_decide. }
  replace (candidates bad 0 0) with (∅ : gset Z) in Hin by (by vm_compute).
  by apply not_elem_of_empty in Hin.
Qed.

(** * The theorems at concrete inputs *)

Lemma solve_solves_witness :
  well_formed zs ∧ (∃ S, completion zs S) ∧ (82 ≤ 82)%nat ∧
  ∃ g', solve 82 zs = Ret (tt, g') ∧ is_valid g' = true ∧ extends zs g'.
Proof.
  assert (well_formed zs) as Hwf by by_decide.
  assert (∃ S, completion zs S) as HS by (exists zs_solved; by_decide).
  assert (82 ≤ 82)%nat as Hfuel by lia.
  split_and!; [done..|]. exact (solve_solves 82 zs Hwf HS Hfuel).
Defined.

Lemma hidden_single_rule_witness :
  wf_table zs ∧ (0 < 9)%nat ∧ (1 < 9)%nat ∧
  ∃ poss steps,
    get_possibilities zs = Ret poss ∧ find_next_steps zs = Ret steps ∧
    (∀ nr, ∃ b : bool,
       can_be_placed_elsewhere 0 1 nr poss = Ret b ∧
       (b = true ↔
          (∃ p, p ∈ col_cells 1 ∧ p ≠ (0%nat, 1%nat) ∧ nr ∈ cell poss p)
          ∧ (∃ p, p ∈ row_cells 0 ∧ p ≠ (0%nat, 1%nat) ∧ nr ∈ cell poss p)
          ∧ (∃ p, p ∈ box_cells 0 1 ∧ p ≠ (0%nat, 1%nat) ∧ nr ∈ cell poss p))) ∧
    (cell zs (0%nat, 1%nat) ∉ ref → (1 < size (cell poss (0%nat, 1%nat)))%nat →
     filter (λ s : step, s.1 = (0%nat, 1%nat)) steps =
       match list_find (λ nr, can_be_placed_elsewhere 0 1 nr poss = Ret false)
               (set_iter (cell poss (0%nat, 1%nat))) with
       | Some (_, nr) => [(0%nat, 1%nat, nr)]
       | None => []
       end).
Proof.
  assert (wf_table zs) as Hwf by by_decide.
  assert (0 < 9)%nat as Hi by lia. assert (1 < 9)%nat as Hj by lia.
  split_and!; [done..|]. exact (hidden_single_rule zs 0 1 Hwf Hi Hj).
Defined.

Lemma is_valid_exactly_once_witness :
  wf_table zs_solved ∧
  (is_valid zs_solved = true ↔
     ∀ k d, (k < 9)%nat → 1 ≤ d ≤ 9 →
       count_occ Z.eq_dec (vals zs_solved (row_cells k)) d = 1%nat
       ∧ count_occ Z.eq_dec (vals zs_solved (col_cells k)) d = 1%nat
       ∧ count_occ Z.eq_dec (vals zs_solved (box_of k)) d = 1%nat)
  ∧ (∀ i j, (i < 9)%nat → (j < 9)%nat → cell zs_solved (i, j) = 0 →
            is_valid zs_solved = false).
Proof.
  assert (wf_table zs_solved) as Hwf by by_decide.
  split; [done|]. exact (is_valid_exactly_once zs_solved Hwf).
Defined.

Lemma legal_digits_correct_witness :
  wf_table zs ∧ (0 < 9)%nat ∧ (1 < 9)%nat ∧
  ∃ poss,
    get_possibilities zs = Ret poss ∧
    (cell zs (0%nat, 1%nat) ∉ ref →
       get_possible_values 0 1 zs = Ret (cell poss (0%nat, 1%nat)) ∧
       ∀ d, d ∈ cell poss (0%nat, 1%nat) ↔
              1 ≤ d ≤ 9 ∧ (d ∉ vals zs (row_cells 0)) ∧ (d ∉ vals zs (col_cells 1))
              ∧ (d ∉ vals zs (box_cells 0 1))) ∧
    (1 ≤ cell zs (0%nat, 1%nat) ≤ 9 → cell poss (0%nat, 1%nat) = ∅).
Proof.
  assert (wf_table zs) as Hwf by by_decide.
  assert (0 < 9)%nat as Hi by lia. assert (1 < 9)%nat as Hj by lia.
  split_and!; [done..|]. exact (legal_digits_correct zs 0 1 Hwf Hi Hj).
Defined.

Lemma brute_force_restores_witness :
  well_formed dead_end ∧ (82 ≤ 82)%nat ∧
  ∃ b g', brute_force 82 dead_end = Ret (b, g') ∧ (b = false → g' = dead_end).
Proof.
  assert (well_formed dead_end) as Hwf by by_decide.
  assert (82 ≤ 82)%nat as Hfuel by lia.
  split_and!; [done..|]. exact (brute_force_restores 82 dead_end Hwf Hfuel).
Defined.

(** C6 fails on [bad]: the grid has no completion, [solve] returns its
    usual value, and the grid it leaves is not the grid it was given (the
    1 written by the propagation pass stays at row 8, column 8). *)
Lemma solve_unsolvable_counterexample :
  well_formed bad ∧ (¬ ∃ S, completion bad S) ∧
  solve 82 bad = Ret (tt, bad_after) ∧ bad_after ≠ bad ∧
  solve 82 zs = Ret (tt, zs_solved).
Proof.
  split_and!; [by_decide|apply bad_no_completion|by vm_compute|by_decide
              |by vm_compute].
Qed.

Lemma solve_unsolvable_witness :
  well_formed bad ∧ (¬ ∃ S, completion bad S) ∧ (82 ≤ 82)%nat ∧
  ∃ n g1,
    solve_loop 82 0 bad = Ret (n, g1) ∧ solve 82 bad = Ret (tt, g1) ∧
    is_valid g1 = false ∧ extends bad g1.
Proof.
  assert (well_formed bad) as Hwf by by_decide.
  assert (82 ≤ 82)%nat as Hfuel by lia.
  split_and!; [done|apply bad_no_completion|done|].
  exact (solve_unsolvable 82 bad Hwf bad_no_completion Hfuel).
Defined.

Lemma batch_one_step_per_cell_witness :
  wf_table zs ∧
  ∃ steps, find_next_steps zs = Ret steps ∧ NoDup ((λ s : step, s.1) <$> steps).
Proof.
  assert (wf_table zs) as Hwf by by_decide.
  split; [done|]. exact (batch_one_step_per_cell zs Hwf).
Defined.

Lemma solve_idempotent_witness :
  (1 ≤ 82)%nat ∧ wf_table zs_solved ∧ is_valid zs_solved = true ∧
  well_formed zs ∧ solve 82 zs = Ret (tt, zs_solved) ∧
  (∃ g', solve 82 zs_solved = Ret (tt, g') ∧ g' = zs_solved ∧ is_valid g' = true) ∧
  solve 82 zs_solved = Ret (tt, zs_solved).
Proof.
  assert (1 ≤ 82)%nat as Hfuel by lia.
  assert (82 ≤ 82)%nat as Hfuel0 by lia.
  assert (wf_table zs_solved) as Hwf by by_decide.
  assert (is_valid zs_solved = true) as Hvalid by (by vm_compute).
  assert (well_formed zs) as Hwf0 by by_decide.
  assert (solve 82 zs = Ret (tt, zs_solved)) as Hrun by (by vm_compute).
  destruct (solve_idempotent 82 zs_solved Hfuel) as [Hsame Hagain].
  split_and!; [done..|exact (Hsame Hwf Hvalid)
              |exact (Hagain 82%nat zs Hwf0 Hfuel0 Hrun Hvalid)].
Defined.

Lemma propagation_terminates_witness :
  wf_table zs ∧
  ∃ steps,
    find_next_steps zs = Ret steps ∧
    (∀ i j nr, (i, j, nr) ∈ steps →
       (i < 9)%nat ∧ (j < 9)%nat ∧ (cell zs (i, j) ∉ ref) ∧ 1 ≤ nr ≤ 9 ∧
       ∃ poss, get_possibilities zs = Ret poss ∧ nr ∈ cell poss (i, j)) ∧
    (steps ≠ [] →
       ∃ g', perform_steps steps zs = Ret g' ∧ wf_table g'
             ∧ (empties g' < empties zs)%nat ∧ (in_range zs → in_range g')) ∧
    (∀ fuel, (82 ≤ fuel)%nat →
       ∃ n g', solve_loop fuel 0 zs = Ret (n, g') ∧ (n ≤ 82)%nat
               ∧ wf_table g' ∧ (in_range zs → in_range g')).
Proof.
  assert (wf_table zs) as Hwf by by_decide.
  split; [done|]. exact (propagation_terminates zs Hwf).
Defined.

(** C10 fails on the puzzle of the driver: the rendering has 253 characters,
    it loads to 28 rows, and the first of them is not the first row of the
    grid. *)
Lemma load_render_load_counterexample :
  length puzzle = 81%nat ∧
  length (print_sudoku (load puzzle)) = 253%nat ∧
  length (load (print_sudoku (load puzzle))) = 28%nat ∧
  load puzzle !! 0%nat = Some [7; 0; 0; 0; 5; 4; 0; 0; 1] ∧
  load (print_sudoku (load puzzle)) !! 0%nat = Some [0; 7; 0; 0; 0; 0; 0; 0; 0] ∧
  equality (load puzzle) (load (print_sudoku (load puzzle))) = Ret false.
Proof. split_and!; by vm_compute. Qed.

Lemma load_render_digits_witness :
  length puzzle = 81%nat ∧
  well_formed (load puzzle) ∧
  equality (load puzzle)
           (load (filter is_digit (print_sudoku (load puzzle)))) = Ret true.
Proof.
  assert (length puzzle = 81%nat) as Hlen by reflexivity.
  split; [done|]. exact (load_render_digits puzzle Hlen).
Defined.

(** * Further properties of the accessors *)


Lemma vals_join `{Inhabited A} (t : list (list A)) (us : list (list (nat * nat))) :
  mjoin (vals t <$> us) = vals t (mjoin us).
Proof.
  unfold vals. induction us as [|u us IH]; [done|].
  rewrite !fmap_cons. simpl. by rewrite IH, fmap_app.
Qed.

Lemma mjoin_cells `{Inhabited A} (t : list (list A)) :
  wf_table t → mjoin t = vals t cells.
Proof. intros Hwf. explode_table t Hwf. reflexivity. Qed.

Lemma boxes_cells : mjoin (box_of <$> seq 0 9) ≡ₚ cells.
Proof.
  apply NoDup_Permutation; [by_decide|apply NoDup_cells|].
  assert (Forall (λ p, p ∈ cells) (mjoin (box_of <$> seq 0 9))) as H1 by by_decide.
  assert (Forall (λ p, p ∈ mjoin (box_of <$> seq 0 9)) cells) as H2 by by_decide.
  rewrite Forall_forall in H1, H2. split; auto.
Qed.

Lemma get_fields_small {A} (t : list (list A)) :
  Forall (λ field, (length field ≤ 3)%nat
                   ∧ Forall (λ row, (length row ≤ 3)%nat) field) (get_fields t).
Proof.
  apply Forall_forall. intros field Hin. unfold get_fields in Hin.
  apply list_elem_of_bind in Hin as (i & Hin & _).
  apply list_elem_of_bind in Hin as (j & Hin & _).
  apply list_elem_of_singleton in Hin as ->. unfold slice. split.
  - rewrite length_fmap, length_take. lia.
  - apply Forall_fmap, Forall_forall. intros row _. simpl.
    rewrite length_take. lia.
Qed.

(** X1.  [get_fields] returns nine fields of at most three rows of at most three
    entries whatever it is given, and on a 9×9 table the nine fields together
    hold the entries of the table, each once. *)
Theorem get_fields_partition {A} (t : list (list A)) :
  length (get_fields t) = 9%nat ∧
  Forall (λ field, (length field ≤ 3)%nat
                   ∧ Forall (λ row, (length row ≤ 3)%nat) field) (get_fields t) ∧
  (wf_table t → mjoin (mjoin <$> get_fields t) ≡ₚ mjoin t).
Proof.
  split; [reflexivity|]. split; [apply get_fields_small|].
  - intros Hwf.
    destruct t as [|r t']; [by destruct Hwf|].
    assert (Inhabited A) as Hinh.
    { destruct Hwf as [_ Hrows]. apply Forall_cons_1 in Hrows as [Hr _].
      destruct r as [|a r]; [done|exact (populate a)]. }
    rewrite get_fields_wf, vals_join, (mjoin_cells (r :: t')) by done.
    unfold vals. by rewrite boxes_cells.
Qed.



(** * What the validator accepts *)

Lemma set_ref_row (row : list Z) :
  list_to_set row = ref → (9 ≤ length row)%nat ∧ Forall (λ v, 1 ≤ v ≤ 9) row.
Proof.
  intros Hset. split.
  - change 9%nat with (length digits). apply submseteq_length.
    apply NoDup_submseteq; [apply NoDup_digits|].
    intros x Hx. apply (elem_of_list_to_set (C:=gset Z)).
    rewrite Hset. unfold ref. by apply elem_of_list_to_set.
  - apply Forall_forall. intros v Hv. apply elem_of_ref. rewrite <-Hset.
    by apply elem_of_list_to_set.
Qed.

Lemma length_omap_le {A B} (f : A → option B) (l : list A) :
  (length (omap f l) ≤ length l)%nat.
Proof.
  induction l as [|x l IH]; [done|]. csimpl. destruct (f x); simpl; lia.
Qed.

Lemma foldr_min_ge (n : nat) (l : list nat) (m : nat) :
  (n ≤ m)%nat → Forall (λ k, (n ≤ k)%nat) l → (n ≤ foldr Nat.min m l)%nat.
Proof. intros Hm. induction 1; simpl; lia. Qed.

(** X4.  [is_valid] accepts only grids with at least nine rows, each of at least
    nine entries, all of them digits of 1 to 9: the empty grid, a grid that
    lacks a row and a grid with a short row are rejected. *)
Theorem is_valid_shape (g : grid) :
  is_valid g = true →
  (9 ≤ length g)%nat
  ∧ Forall (λ row, (9 ≤ length row)%nat ∧ Forall (λ v, 1 ≤ v ≤ 9) row) g.
Proof.
  intros (Hrows & Hcols & Hboxes)%is_valid_Forall.
  assert (Forall (λ row, (9 ≤ length row)%nat ∧ Forall (λ v, 1 ≤ v ≤ 9) row) g)
    as Hshape.
  { eapply Forall_impl; [exact Hrows|]. intros row. apply set_ref_row. }
  split; [|done]. destruct g as [|r rs].
  - exfalso. apply Forall_fmap in Hboxes.
    apply Forall_cons_1 in Hboxes as [Hbox _]. simpl in Hbox.
    assert (1 ∈ ref) as Hin by (by apply elem_of_ref).
    rewrite <-Hbox in Hin. by apply not_elem_of_empty in Hin.
  - unfold zip_star in Hcols.
    assert (9 ≤ foldr Nat.min (length r) (length <$> rs))%nat as Hn.
    { apply Forall_cons_1 in Hshape as [[Hr _] Hrs].
      apply foldr_min_ge; [done|]. apply Forall_fmap.
      eapply Forall_impl; [exact Hrs|]. by intros row [? _]. }
    destruct (foldr Nat.min (length r) (length <$> rs)) as [|n]; [lia|].
    rewrite <-cons_seq, fmap_cons in Hcols.
    apply Forall_cons_1 in Hcols as [Hcol _].
    apply set_ref_row in Hcol as [Hlen _].
    etrans; [exact Hlen|]. apply length_omap_le.
Qed.

Lemma is_valid_shape_witness :
  is_valid zs_solved = true ∧
  (9 ≤ length zs_solved)%nat
  ∧ Forall (λ row, (9 ≤ length row)%nat ∧ Forall (λ v, 1 ≤ v ≤ 9) row) zs_solved.
Proof.
  assert (is_valid zs_solved = true) as Hvalid by (by vm_compute).
  split; [done|]. exact (is_valid_shape zs_solved Hvalid).
Defined.

(** The shape is not checked beyond that: a tenth row that repeats the
    first one is accepted. *)
Example is_valid_ten_rows : is_valid (zs_solved ++ [[7; 9; 8; 3; 5; 4; 6; 2; 1]]) = true.
Proof. by vm_compute. Qed.

(** * Comparing grids *)

Lemma equality_from_spec (s1 s2 : grid) (l : list (nat * nat)) :
  wf_table s1 → wf_table s2 → (∀ p, p ∈ l → p ∈ cells) →
  ∃ b : bool, equality_from l s1 s2 = Ret b
              ∧ (b = true ↔ ∀ p, p ∈ l → cell s1 p = cell s2 p).
Proof.
  intros Hwf1 Hwf2. induction l as [|[i j] l IH]; intros Hl.
  { exists true. split; [done|]. split; [|done]. by intros _ p ?%elem_of_nil. }
  assert ((i, j) ∈ cells) as [Hi Hj]%elem_of_cells by (apply Hl; left).
  destruct IH as (b & Hrun & Hb); [intros p Hp; apply Hl; by right|].
  cbn [equality_from].
  destruct (index_cell s1 i j Hwf1 Hi Hj) as (r1 & -> & Hr1 & _).
  rewrite bind_Ret, Hr1, bind_Ret.
  destruct (index_cell s2 i j Hwf2 Hi Hj) as (r2 & -> & Hr2 & _).
  rewrite bind_Ret, Hr2, bind_Ret.
  destruct (decide (cell s1 (i, j) ≠ cell s2 (i, j))) as [Hne|Heq].
  - exists false. split; [done|]. split; [done|]. intros Hall.
    destruct Hne. apply Hall. left.
  - exists b. split; [done|]. rewrite Hb. apply dec_stable in Heq. split.
    + intros Hall p [->|Hp]%elem_of_cons; auto.
    + intros Hall p Hp. apply Hall. by right.
Qed.

(** X5.  On two 9×9 grids [equality] returns, and it returns [True] exactly when
    the two grids are the same. *)
Theorem equality_decides (s1 s2 : grid) :
  wf_table s1 → wf_table s2 →
  ∃ b : bool, equality s1 s2 = Ret b ∧ (b = true ↔ s1 = s2).
Proof.
  intros Hwf1 Hwf2.
  destruct (equality_from_spec s1 s2 cells Hwf1 Hwf2) as (b & Hrun & Hb); [done|].
  exists b. split; [done|]. rewrite Hb. split.
  - by apply grid_ext.
  - by intros ->.
Qed.

Lemma equality_decides_witness :
  wf_table zs ∧ wf_table zs_solved ∧
  ∃ b : bool, equality zs zs_solved = Ret b ∧ (b = true ↔ zs = zs_solved).
Proof.
  assert (wf_table zs) as Hwf1 by by_decide.
  assert (wf_table zs_solved) as Hwf2 by by_decide.
  split_and!; [done..|]. exact (equality_decides zs zs_solved Hwf1 Hwf2).
Defined.

(** * Loading *)

Lemma length_join_rows {A} (n : nat) (rows : list (list A)) :
  Forall (λ row, length row = n) rows → length (mjoin rows) = (n * length rows)%nat.
Proof.
  induction 1 as [|row rows Hrow _ IH]; simpl; [lia|].
  rewrite length_app, IH, Hrow. lia.
Qed.

Lemma join_snoc {A} (rows : list (list A)) (row : list A) :
  mjoin (rows ++ [row]) = mjoin rows ++ row.
Proof. rewrite join_app. simpl. by rewrite app_nil_r. Qed.

(** What [convert_from] does with the characters still to come: full rows
    of nine are appended to [res], and fewer than nine characters are left
    over in [curr]. *)
Lemma convert_from_spec (string : pystr) :
  ∀ (idx : nat) (curr : list ascii) (res : list (list ascii)),
    (idx `mod` 9 = length curr)%nat →
    Forall (λ row, length row = 9%nat) res →
    Forall (λ row, length row = 9%nat) (convert_from idx curr res string)
    ∧ ∃ rest, mjoin (convert_from idx curr res string) ++ rest
              = mjoin res ++ curr ++ string
              ∧ (length rest < 9)%nat.
Proof.
  induction string as [|char string IH]; intros idx curr res Hidx Hres.
  - simpl. split; [done|]. exists curr. rewrite app_nil_r. split; [done|].
    rewrite <-Hidx. apply Nat.mod_upper_bound. lia.
  - cbn [convert_from]. destruct (decide (idx `mod` 9 = 8)%nat) as [H8|H8].
    + destruct (IH (S idx) [] (res ++ [curr ++ [char]])) as (Hall & rest & Heq & Hrest).
      * cbn [length]. replace (S idx) with (idx + 1)%nat by lia.
        rewrite Nat.Div0.add_mod, H8 by lia. done.
      * apply Forall_app. split; [done|]. apply Forall_singleton.
        rewrite length_app. simpl. lia.
      * split; [done|]. exists rest. split; [|done].
        rewrite Heq, join_snoc. simpl. by rewrite <-!app_assoc.
    + destruct (IH (S idx) (curr ++ [char]) res) as (Hall & rest & Heq & Hrest);
        [|done|].
      * rewrite length_app. cbn [length]. replace (S idx) with (idx + 1)%nat by lia.
        pose proof (Nat.mod_upper_bound idx 9).
        rewrite Nat.Div0.add_mod by lia. rewrite Hidx in *.
        change (1 `mod` 9)%nat with 1%nat. rewrite Nat.mod_small; lia.
      * split; [done|]. exists rest. split; [|done].
        rewrite Heq. by rewrite <-!app_assoc.
Qed.

(** X6.  [convert_string_to_array] cuts a string of any length into rows of
    exactly nine characters, in order; the characters after the last full
    row are dropped. *)
Theorem convert_string_to_array_rows (string : pystr) :
  length (convert_string_to_array string) = (length string / 9)%nat ∧
  Forall (λ row, length row = 9%nat) (convert_string_to_array string) ∧
  mjoin (convert_string_to_array string) = take (length string / 9 * 9) string.
Proof.
  unfold convert_string_to_array.
  destruct (convert_from_spec string 0 [] []) as (Hall & rest & Heq & Hrest);
    [done|done|].
  simpl in Heq. pose proof (length_join_rows 9 _ Hall) as Hlen.
  assert (length string = 9 * length (convert_from 0 [] [] string) + length rest)%nat
    as Hsum.
  { pose proof (f_equal length Heq) as Hl. rewrite length_app, Hlen in Hl. lia. }
  assert (length (convert_from 0 [] [] string) = length string / 9)%nat as Hrows.
  { apply (Nat.div_unique _ 9 _ (length rest)); lia. }
  split_and!; [done..|].
  rewrite <-Hrows.
  transitivity (take (length (convert_from 0 [] [] string) * 9)
                  (mjoin (convert_from 0 [] [] string) ++ rest)).
  - apply symmetry, take_app_length'. lia.
  - by rewrite Heq.
Qed.

Lemma join_rows_inj {A} (n : nat) (rows rows' : list (list A)) :
  Forall (λ row, length row = n) rows → Forall (λ row, length row = n) rows' →
  (0 < n)%nat → mjoin rows = mjoin rows' → rows = rows'.
Proof.
  intros Hrows. revert rows'.
  induction Hrows as [|row rows Hrow _ IH]; intros rows' Hrows' Hn Heq.
  - destruct Hrows' as [|row' rows' Hrow' _]; [done|].
    simpl in Heq. destruct row'; [simpl in *; lia|done].
  - destruct Hrows' as [|row' rows' Hrow' Hrows'].
    + simpl in Heq. destruct row; [simpl in *; lia|done].
    + simpl in Heq. apply app_inj_1 in Heq as [-> Heq]; [|congruence].
      f_equal. by apply IH.
Qed.

(** X7.  Round trip: cutting the concatenation of rows of nine characters gives
    the rows back. *)
Theorem convert_string_to_array_join (rows : list (list ascii)) :
  Forall (λ row, length row = 9%nat) rows →
  convert_string_to_array (mjoin rows) = rows.
Proof.
  intros Hrows. unfold convert_string_to_array.
  destruct (convert_from_spec (mjoin rows) 0 [] []) as (Hall & rest & Heq & Hrest);
    [done|done|].
  simpl in Heq.
  assert (rest = []) as ->.
  { apply (f_equal length) in Heq.
    rewrite length_app, !(length_join_rows 9) in Heq by done.
    destruct rest; [done|]. simpl in *. lia. }
  rewrite app_nil_r in Heq. by apply (join_rows_inj 9).
Qed.

Lemma convert_string_to_array_join_witness :
  Forall (λ row, length row = 9%nat) (convert_string_to_array puzzle) ∧
  convert_string_to_array (mjoin (convert_string_to_array puzzle))
  = convert_string_to_array puzzle.
Proof.
  assert (Forall (λ row, length row = 9%nat) (convert_string_to_array puzzle))
    as Hrows by by_decide.
  split; [done|].
  exact (convert_string_to_array_join (convert_string_to_array puzzle) Hrows).
Defined.

Lemma parse_elem_digit (c : ascii) (v : Z) :
  1 ≤ v ≤ 9 → parse_elem c = v ↔ c = ascii_of_nat (48 + Z.to_nat v).
Proof.
  intros Hv.
  assert (v = 1 ∨ v = 2 ∨ v = 3 ∨ v = 4 ∨ v = 5 ∨ v = 6 ∨ v = 7 ∨ v = 8 ∨ v = 9)
    as Hc by lia.
  clear Hv.
  repeat (destruct Hc as [Hc|Hc]); subst v;
    destruct c as [[] [] [] [] [] [] [] []]; vm_compute;
    (split; intros H; [first [reflexivity|discriminate H]
                      |first [reflexivity|discriminate H]]).
Qed.

(** X8.  [Load] on a string of 81 characters: the cell at [(i, j)] comes from the
    character at index [9 * i + j]; it is the digit [v] of 1 to 9 exactly
    when that character is the character of [v] (code 48 + [v]), and 0 for
    every other character. *)
Theorem load_cells (string : pystr) (i j : nat) :
  length string = 81%nat → (i < 9)%nat → (j < 9)%nat →
  ∃ c, string !! (9 * i + j)%nat = Some c ∧
       cell (load string) (i, j) = parse_elem c ∧
       (∀ v, 1 ≤ v ≤ 9 → parse_elem c = v ↔ c = ascii_of_nat (48 + Z.to_nat v)) ∧
       ((∀ v, 1 ≤ v ≤ 9 → c ≠ ascii_of_nat (48 + Z.to_nat v)) → parse_elem c = 0).
Proof.
  intros Hlen Hi Hj.
  assert (∃ c, string !! (9 * i + j)%nat = Some c
               ∧ cell (load string) (i, j) = parse_elem c) as (c & Hc & Hcell).
  { do 81 (destruct string as [|? string]; [discriminate Hlen|]).
    destruct string; [|discriminate Hlen]. clear Hlen.
    cases9 i Hi; cases9 j Hj; (eexists; split; reflexivity). }
  exists c. split_and!; [done..| |].
  - intros v Hv. by apply parse_elem_digit.
  - intros Hother. pose proof (parse_elem_range c) as Hr.
    destruct (decide (parse_elem c = 0)) as [|Hne]; [done|].
    destruct (Hother (parse_elem c)); [lia|].
    apply parse_elem_digit; [lia|done].
Qed.

Lemma load_cells_witness :
  length puzzle = 81%nat ∧ (0 < 9)%nat ∧ (4 < 9)%nat ∧
  ∃ c, puzzle !! (9 * 0 + 4)%nat = Some c ∧
       cell (load puzzle) (0%nat, 4%nat) = parse_elem c ∧
       (∀ v, 1 ≤ v ≤ 9 → parse_elem c = v ↔ c = ascii_of_nat (48 + Z.to_nat v)) ∧
       ((∀ v, 1 ≤ v ≤ 9 → c ≠ ascii_of_nat (48 + Z.to_nat v)) → parse_elem c = 0).
Proof.
  assert (length puzzle = 81%nat) as Hlen by reflexivity.
  assert (0 < 9)%nat as Hi by lia. assert (4 < 9)%nat as Hj by lia.
  split_and!; [done..|]. exact (load_cells puzzle 0 4 Hlen Hi Hj).
Defined.

(** * Further properties of the propagator *)

(** X9.  Every step that [find_next_steps] proposes on a 9×9 grid is forced: every
    valid completion of the grid has the digit of the step at the cell of
    the step. *)
Theorem find_next_steps_sound (g : grid) :
  wf_table g →
  ∃ steps, find_next_steps g = Ret steps ∧
    ∀ i j nr S, (i, j, nr) ∈ steps → completion g S → cell S (i, j) = nr.
Proof.
  intros Hwf. exists (batch g). split; [by apply find_next_steps_wf|].
  intros i j nr S Hs HS. by apply (step_sound g S (i, j) nr).
Qed.

Lemma find_next_steps_sound_witness :
  wf_table zs ∧
  ∃ steps, find_next_steps zs = Ret steps ∧
    ∀ i j nr S, (i, j, nr) ∈ steps → completion zs S → cell S (i, j) = nr.
Proof.
  assert (wf_table zs) as Hwf by by_decide.
  split; [done|]. exact (find_next_steps_sound zs Hwf).
Defined.

Lemma set_iter_singleton d : 1 ≤ d ≤ 9 → set_iter {[d]} = [d].
Proof.
  intros Hd.
  assert (d = 1 ∨ d = 2 ∨ d = 3 ∨ d = 4 ∨ d = 5 ∨ d = 6 ∨ d = 7 ∨ d = 8 ∨ d = 9)
    as Hc by lia.
  repeat (destruct Hc as [Hc|Hc]); subst d; by vm_compute.
Qed.

(** X10.  The steps of a batch for one cell, where the hidden-single scan plays no
    part: a filled cell gets no step; an empty cell whose set of legal digits
    has one element gets the step that writes it; an empty cell without a
    legal digit gets no step. *)
Theorem single_candidate_step (g : grid) (i j : nat) :
  wf_table g → (i < 9)%nat → (j < 9)%nat →
  ∃ vs steps,
    get_possible_values i j g = Ret vs ∧ find_next_steps g = Ret steps ∧
    (cell g (i, j) ∈ ref → filter (λ s : step, s.1 = (i, j)) steps = []) ∧
    (cell g (i, j) ∉ ref →
       (∀ d, vs = {[d]} → filter (λ s : step, s.1 = (i, j)) steps = [(i, j, d)])
       ∧ (vs = ∅ → filter (λ s : step, s.1 = (i, j)) steps = [])).
Proof.
  intros Hwf Hi Hj. exists (candidates g i j), (batch g).
  assert (filter (λ s : step, s.1 = (i, j)) (batch g)
          = cell_steps (tabulate (entry g)) (i, j)) as ->.
  { unfold batch.
    apply (filter_bind_fst _ cells (i, j));
      [apply NoDup_cells|by apply elem_of_cells|apply cell_steps_fst]. }
  split_and!; [by apply get_possible_values_wf|by apply find_next_steps_wf| |].
  - intros Hfilled.
    unfold cell_steps, first_stuck. rewrite cell_tabulate by done.
    unfold entry.
    destruct (decide (cell g (i, j) ∉ ref)) as [Hn|_]; [by destruct Hn|].
    rewrite size_empty, set_iter_empty. reflexivity.
  - intros Hempty.
    unfold cell_steps, first_stuck. rewrite cell_tabulate by done.
    unfold entry.
    destruct (decide (cell g (i, j) ∉ ref)) as [_|Hn]; [|by destruct Hn]. split.
    + intros d Hd.
      assert (1 ≤ d ≤ 9) as Hr.
      { assert (d ∈ candidates g i j) as Hin by (rewrite Hd; by apply elem_of_singleton).
        by apply elem_of_candidates in Hin as [? _]. }
      rewrite Hd. rewrite size_singleton.
      rewrite decide_True by reflexivity.
      rewrite (set_iter_singleton d Hr). reflexivity.
    + intros Hv. rewrite Hv. rewrite size_empty, set_iter_empty.
      reflexivity.
Qed.

Lemma single_candidate_step_witness :
  wf_table bad ∧ (8 < 9)%nat ∧ (8 < 9)%nat ∧
  ∃ vs steps,
    get_possible_values 8 8 bad = Ret vs ∧ find_next_steps bad = Ret steps ∧
    (cell bad (8%nat, 8%nat) ∈ ref →
       filter (λ s : step, s.1 = (8%nat, 8%nat)) steps = []) ∧
    (cell bad (8%nat, 8%nat) ∉ ref →
       (∀ d, vs = {[d]} →
          filter (λ s : step, s.1 = (8%nat, 8%nat)) steps = [(8%nat, 8%nat, d)])
       ∧ (vs = ∅ → filter (λ s : step, s.1 = (8%nat, 8%nat)) steps = [])).
Proof.
  assert (wf_table bad) as Hwf by by_decide.
  assert (8 < 9)%nat as Hi by lia.
  split_and!; [done..|]. exact (single_candidate_step bad 8 8 Hwf Hi Hi).
Defined.

Lemma extends_trans_back g g1 S :
  extends g g1 → extends g1 S → extends g S.
Proof.
  intros H1 H2 p Hp Hfilled. rewrite <-(H1 p Hp Hfilled).
  apply H2; [done|]. by rewrite (H1 p Hp Hfilled).
Qed.

(** X11.  The propagation loop loses no solution and adds none: on a 9×9 grid it
    ends on a grid that keeps every digit of the grid it started from, on
    which no further step is found, and that has the same valid completions
    as the grid it started from. *)
Theorem propagation_keeps_completions (fuel : nat) (g : grid) :
  wf_table g → (82 ≤ fuel)%nat →
  ∃ n g1, solve_loop fuel 0 g = Ret (n, g1) ∧
    extends g g1 ∧ find_next_steps g1 = Ret [] ∧
    ∀ S, completion g S ↔ completion g1 S.
Proof.
  intros Hwf Hfuel. pose proof (empties_bound g).
  destruct (solve_loop_runs fuel 0 g Hwf) as (n & g1 & Hrun & _ & Hpasses & Hend);
    [lia|].
  assert (extends g g1) as Hext by (intros p _ Hfilled; by apply passes_keep).
  exists n, g1. split_and!; [done|done| |].
  - rewrite find_next_steps_wf by (by eapply passes_wf). by rewrite Hend.
  - intros S. split; [by apply passes_sound|].
    intros [HS Hext1]. split; [done|]. by eapply extends_trans_back.
Qed.

Lemma propagation_keeps_completions_witness :
  wf_table bad ∧ (82 ≤ 82)%nat ∧
  ∃ n g1, solve_loop 82 0 bad = Ret (n, g1) ∧
    extends bad g1 ∧ find_next_steps g1 = Ret [] ∧
    ∀ S, completion bad S ↔ completion g1 S.
Proof.
  assert (wf_table bad) as Hwf by by_decide.
  assert (82 ≤ 82)%nat as Hfuel by lia.
  split_and!; [done..|]. exact (propagation_keeps_completions 82 bad Hwf Hfuel).
Defined.

(** X12.  When the propagation loop alone ends on a grid that [is_valid] accepts,
    that grid is the only valid completion of the grid it started from. *)
Theorem propagation_solution_unique (fuel : nat) (g : grid) (n : nat) (g1 : grid) :
  wf_table g → solve_loop fuel 0 g = Ret (n, g1) → is_valid g1 = true →
  completion g g1 ∧ ∀ S, completion g S → S = g1.
Proof.
  intros Hwf. revert n g1.
  assert (∀ fuel c g n g1, wf_table g → solve_loop fuel c g = Ret (n, g1) →
            rtc pass g g1) as Hinv.
  { clear. induction fuel as [|fuel IH]; intros c g n g1 Hwf; [done|].
    cbn [solve_loop]. rewrite find_next_steps_wf, bind_Ret by done. cbv beta zeta.
    destruct (decide (length (batch g) = 0%nat)) as [Hnil|Hcons].
    - intros [= _ <-]. done.
    - assert (batch g ≠ []) as Hne by (intros Heq; by rewrite Heq in Hcons).
      destruct (pass_exists g Hwf Hne) as [g' Hpass].
      pose proof Hpass as (_ & _ & ->). rewrite bind_Ret. intros Hrun.
      eapply rtc_l; [done|]. eapply IH; [by eapply pass_wf|done]. }
  intros n g1 Hrun Hvalid. pose proof (Hinv _ _ _ _ _ Hwf Hrun) as Hpasses.
  pose proof (passes_wf g g1 Hpasses Hwf) as Hwf1.
  assert (solution g1) as Hsol by done.
  split.
  - split; [done|]. intros p _ Hfilled. by apply passes_keep.
  - intros S HS. pose proof (passes_sound g g1 S Hpasses HS) as [[HSwf _] Hext].
    apply grid_ext; [done..|]. intros p Hp. apply Hext; [done|].
    by apply solution_full.
Qed.

Lemma propagation_solution_unique_witness :
  wf_table zs ∧ solve_loop 82 0 zs = Ret (8%nat, zs_solved) ∧
  is_valid zs_solved = true ∧
  completion zs zs_solved ∧ ∀ S, completion zs S → S = zs_solved.
Proof.
  assert (wf_table zs) as Hwf by by_decide.
  assert (solve_loop 82 0 zs = Ret (8%nat, zs_solved)) as Hrun by (by vm_compute).
  assert (is_valid zs_solved = true) as Hvalid by (by vm_compute).
  split; [exact Hwf|]. split; [exact Hrun|]. split; [exact Hvalid|].
  exact (propagation_solution_unique 82 zs 8 zs_solved Hwf Hrun Hvalid).
Defined.

(** * Writing a batch into a grid of any shape *)




(** * Further properties of the search *)

(** X14.  [brute_force] decides whether a well-formed grid has a valid completion:
    it returns [True] exactly when there is one, and then the grid it leaves
    is one. *)
Theorem brute_force_decides (fuel : nat) (g : grid) :
  well_formed g → (82 ≤ fuel)%nat →
  ∃ b g', brute_force fuel g = Ret (b, g') ∧
    (b = true ↔ ∃ S, completion g S) ∧ (b = true → completion g g').
Proof.
  intros [Hwf Hrange] Hfuel. pose proof (empties_bound g).
  destruct (try_combinations_ok fuel g Hwf Hrange) as (b & g' & Hrun & Hres);
    [lia|].
  exists b, g'. split; [done|]. destruct b.
  - split; [|done]. split; [|done]. intros _. by exists g'.
  - destruct Hres as [_ Hnone]. split; [|done]. split; [done|].
    intros HS. by destruct Hnone.
Qed.

Lemma brute_force_decides_witness :
  well_formed dead_end ∧ (82 ≤ 82)%nat ∧
  ∃ b g', brute_force 82 dead_end = Ret (b, g') ∧
    (b = true ↔ ∃ S, completion dead_end S) ∧ (b = true → completion dead_end g').
Proof.
  assert (well_formed dead_end) as Hwf by by_decide.
  assert (82 ≤ 82)%nat as Hfuel by lia.
  split; [exact Hwf|]. split; [exact Hfuel|].
  exact (brute_force_decides 82 dead_end Hwf Hfuel).
Defined.

Lemma lex_le_refl (l : list Z) : lex_le l l.
Proof. induction l as [|x l IH]; simpl; auto. Qed.

Lemma lex_le_antisym (l k : list Z) :
  length l = length k → lex_le l k → lex_le k l → l = k.
Proof.
  revert k. induction l as [|x l IH]; intros [|y k] Hlen H1 H2; try done.
  simpl in *. destruct H1 as [?|[-> H1]], H2 as [?|[? H2]]; try lia.
  f_equal. apply IH; [lia|done..].
Qed.

(** Two grids that agree on the cells before [p], in reading order, compare
    as their values at [p]. *)
Lemma lex_le_prefix (pre post : list (nat * nat)) (p : nat * nat) (g1 g2 : grid) :
  (∀ q, q ∈ pre → cell g1 q = cell g2 q) → cell g1 p < cell g2 p →
  lex_le (vals g1 (pre ++ p :: post)) (vals g2 (pre ++ p :: post)).
Proof.
  intros Hpre Hp. unfold vals. induction pre as [|q pre IH]; simpl.
  - by left.
  - right. split; [apply Hpre; left|]. apply IH. intros q' Hq'. apply Hpre. by right.
Qed.

Lemma vals_cells_inj (g1 g2 : grid) :
  wf_table g1 → wf_table g2 → vals g1 cells = vals g2 cells → g1 = g2.
Proof.
  intros Hwf1 Hwf2 Heq. apply grid_ext; [done..|].
  intros p [k Hk]%list_elem_of_lookup.
  assert (vals g1 cells !! k = Some (cell g1 p)) as H1
    by (unfold vals; by rewrite list_lookup_fmap, Hk).
  assert (vals g2 cells !! k = Some (cell g2 p)) as H2
    by (unfold vals; by rewrite list_lookup_fmap, Hk).
  rewrite Heq in H1. congruence.
Qed.

(** Iteration over a set yields its elements in increasing order. *)
Lemma set_iter_sorted (s : gset Z) : StronglySorted Z.lt (set_iter s).
Proof.
  unfold set_iter.
  assert (StronglySorted Z.lt digits) as Hd by (repeat constructor).
  induction Hd as [|d l Hl IH Hall]; [constructor|].
  rewrite filter_cons. destruct (decide (d ∈ s)); [|done].
  constructor; [done|]. apply Forall_forall. intros x [_ Hx]%list_elem_of_filter.
  by apply (proj1 (Forall_forall _ _) Hall).
Qed.

(** [next_step] returns the first empty cell in reading order. *)
Lemma next_step_from_first g (l : list (nat * nat)) i j nrs :
  wf_table g → (∀ p, p ∈ l → p ∈ cells) →
  next_step_from l g = Ret (Some (i, j, nrs)) →
  ∃ pre post, l = pre ++ (i, j) :: post ∧ ∀ p, p ∈ pre → cell g p ∈ ref.
Proof.
  intros Hwf. induction l as [|[a b] l IH]; intros Hl; [done|].
  assert ((a, b) ∈ cells) as [Ha Hb]%elem_of_cells by (apply Hl; left).
  cbn [next_step_from].
  destruct (index_cell g a b Hwf Ha Hb) as (row & -> & Hrow & _).
  rewrite bind_Ret, Hrow, bind_Ret.
  destruct (decide (cell g (a, b) ∉ ref)) as [Hempty|Hfilled].
  - rewrite get_possible_values_wf, bind_Ret by done. intros [= -> -> _].
    exists [], l. split; [done|]. by intros p ?%elem_of_nil.
  - intros Hrun. destruct IH as (pre & post & -> & Hpre); [|done|].
    { intros p Hp. apply Hl. by right. }
    exists ((a, b) :: pre), post. split; [done|].
    intros p [->|Hp]%elem_of_cons; [by apply dec_stable|by apply Hpre].
Qed.

Section least.
Context (recurse : grid → outcome (bool * grid)) (bound : nat).
Context (Hrec : ∀ g, wf_table g → in_range g → (empties g < bound)%nat →
                     search_ok g (recurse g)).
Context (Hleast : ∀ g, wf_table g → in_range g → (empties g < bound)%nat →
                    ∀ g', recurse g = Ret (true, g') →
                    ∀ S, completion g S → lex_le (vals g' cells) (vals S cells)).
Context (g : grid) (i j : nat).
Context (Hwf : wf_table g) (Hrange : in_range g).
Context (Hi : (i < 9)%nat) (Hj : (j < 9)%nat).
Context (Hempty : cell g (i, j) ∉ ref) (Hbound : (empties g ≤ bound)%nat).
Context (pre post : list (nat * nat)).
Context (Hcells : cells = pre ++ (i, j) :: post).
Context (Hpre : ∀ p, p ∈ pre → cell g p ∈ ref).

(** The loop over the candidates, tried in increasing order: the grid it
    succeeds with comes before every completion whose digit at [(i, j)] is
    still to be tried. *)
Lemma try_numbers_least (numbers : list Z) (gc : grid) :
  (∀ nr, nr ∈ numbers → 1 ≤ nr ≤ 9) → StronglySorted Z.lt numbers →
  wf_table gc → (∀ q, q ≠ (i, j) → cell gc q = cell g q) →
  ∀ g', try_numbers recurse i j numbers gc = Ret (true, g') →
  ∀ S, completion g S → cell S (i, j) ∈ numbers →
       lex_le (vals g' cells) (vals S cells).
Proof.
  revert gc. induction numbers as [|nr rest IH]; intros gc Hnum Hsorted Hwfc Hoff.
  - destruct (set_cell_wf gc i j 0 Hwfc Hi Hj) as (g' & Hset & _).
    cbn [try_numbers]. rewrite Hset, bind_Ret. by intros g2 [=].
  - destruct (set_cell_wf gc i j nr Hwfc Hi Hj) as (g1 & Hset & Hwf1 & Hnew & Hold).
    assert (1 ≤ nr ≤ 9) as Hnr by (apply Hnum; left).
    assert (∀ q, q ≠ (i, j) → cell g1 q = cell g q) as Hoff1
      by (intros q Hq; by rewrite Hold, Hoff).
    assert (in_range g1) as Hrange1.
    { apply in_range_cells; [done|]. intros q Hq.
      destruct (decide (q = (i, j))) as [->|Hne]; [rewrite Hnew; lia|].
      rewrite Hoff1 by done. by apply (in_range_cells g). }
    assert (empties g1 < bound)%nat as Hlt.
    { eapply Nat.lt_le_trans; [|done].
      apply (empties_fill g g1 (i, j)); [by apply elem_of_cells|done| |done].
      rewrite Hnew. by apply elem_of_ref. }
    assert (∀ S, completion g S → cell S (i, j) = nr → completion g1 S) as Hdown.
    { intros S [HS Hext] Heq. split; [done|]. intros q Hq Hfilled.
      destruct (decide (q = (i, j))) as [->|Hne]; [by rewrite Hnew|].
      rewrite Hoff1 in * by done. by apply Hext. }
    apply StronglySorted_inv in Hsorted as [Hsorted Hhead].
    destruct (Hrec g1 Hwf1 Hrange1 Hlt) as (b & g2 & Hrun & Hres).
    cbn [try_numbers]. rewrite Hset, bind_Ret, Hrun, bind_Ret. cbn [fst snd].
    destruct b.
    + intros g' [= <-] S HS [Heq|Hin]%elem_of_cons.
      * apply (Hleast g1 Hwf1 Hrange1 Hlt g2 Hrun). by apply Hdown.
      * destruct Hres as [_ Hext2]. destruct HS as [_ HextS].
        assert (cell g2 (i, j) = nr) as Hg2.
        { rewrite <-Hnew. apply Hext2; [by apply elem_of_cells|].
          rewrite Hnew. by apply elem_of_ref. }
        rewrite Hcells. apply lex_le_prefix.
        -- intros q Hq. pose proof (Hpre q Hq) as Hfilled.
           assert (q ∈ cells) as Hqc
             by (rewrite Hcells; apply elem_of_app; by left).
           assert (q ≠ (i, j)) as Hne by (by intros ->).
           rewrite (HextS q Hqc Hfilled), <-(Hoff1 q Hne).
           apply Hext2; [done|]. by rewrite Hoff1.
        -- rewrite Hg2. by apply (proj1 (Forall_forall _ _) Hhead).
    + destruct Hres as [-> Hnone]. intros g' Hrest S HS [Heq|Hin]%elem_of_cons.
      * destruct Hnone. exists S. by apply Hdown.
      * apply (IH g1); try done. intros nr' Hnr'. apply Hnum. by right.
Qed.
End least.

Lemma try_combinations_least fuel g :
  wf_table g → in_range g → (empties g < fuel)%nat →
  ∀ g', try_combinations fuel g = Ret (true, g') →
  ∀ S, completion g S → lex_le (vals g' cells) (vals S cells).
Proof.
  revert g. induction fuel as [|fuel IH]; intros g Hwf Hrange Hfuel; [lia|].
  cbn [try_combinations].
  destruct (next_step_spec g Hwf) as [[Hns Hfull]|(i & j & Hi & Hj & Hempty & Hns)].
  - rewrite Hns, bind_Ret. intros g' [= _ <-] S [[HSwf _] Hext].
    assert (S = g) as -> by (apply grid_ext; [done..|]; intros p Hp; auto).
    apply lex_le_refl.
  - destruct (next_step_from_first g cells i j _ Hwf (λ p Hp, Hp) Hns)
      as (pre & post & Hcells & Hpre).
    rewrite Hns, bind_Ret. intros g' Hrun S HS.
    assert (∀ g0, wf_table g0 → in_range g0 → (empties g0 < fuel)%nat →
                  search_ok g0 (try_combinations fuel g0)) as Hrec
      by (intros; by apply try_combinations_ok).
    assert (empties g ≤ fuel)%nat as Hb by lia.
    assert (∀ nr, nr ∈ set_iter (candidates g i j) → 1 ≤ nr ≤ 9) as Hnum
      by (by intros nr [_ ?]%elem_of_set_iter).
    assert (cell S (i, j) ∈ set_iter (candidates g i j)) as Hin.
    { apply elem_of_set_iter. split; [by apply candidate_of_completion|].
      apply (solution_filled S i j); [by destruct HS|done..]. }
    exact (try_numbers_least (try_combinations fuel) fuel Hrec IH g i j
             Hwf Hrange Hi Hj Hempty Hb pre post Hcells Hpre
             (set_iter (candidates g i j)) g Hnum (set_iter_sorted _) Hwf
             (λ q _, eq_refl) g' Hrun S HS Hin).
Qed.

(** X15.  Among the valid completions of a well-formed grid, [brute_force] finds
    the first one in dictionary order, the grids being read row by row: at
    the first cell where another completion differs from the grid it leaves,
    the other completion has the larger digit. *)
Theorem brute_force_least (fuel : nat) (g : grid) :
  well_formed g → (82 ≤ fuel)%nat → (∃ S, completion g S) →
  ∃ g', brute_force fuel g = Ret (true, g') ∧ completion g g' ∧
    ∀ S, completion g S → lex_le (mjoin g') (mjoin S).
Proof.
  intros [Hwf Hrange] Hfuel Hsome. pose proof (empties_bound g).
  destruct (try_combinations_ok fuel g Hwf Hrange) as (b & g' & Hrun & Hres);
    [lia|].
  destruct b; [|by destruct Hres as [_ Hnone]].
  exists g'. split_and!; [done..|]. intros S HS.
  rewrite (mjoin_cells g'), (mjoin_cells S);
    [|by destruct HS as [[? _] _]|by destruct Hres as [[? _] _]].
  apply (try_combinations_least fuel g); [done|done|lia|done|done].
Qed.

Lemma brute_force_least_witness :
  well_formed zs ∧ (82 ≤ 82)%nat ∧ (∃ S, completion zs S) ∧
  ∃ g', brute_force 82 zs = Ret (true, g') ∧ completion zs g' ∧
    ∀ S, completion zs S → lex_le (mjoin g') (mjoin S).
Proof.
  assert (well_formed zs) as Hwf by by_decide.
  assert (82 ≤ 82)%nat as Hfuel by lia.
  assert (∃ S, completion zs S) as HS by (exists zs_solved; by_decide).
  split; [exact Hwf|]. split; [exact Hfuel|]. split; [exact HS|].
  exact (brute_force_least 82 zs Hwf Hfuel HS).
Defined.

(** X16.  The propagation passes do not change the answer: on a well-formed grid
    with a valid completion, [solve] leaves the grid that [brute_force]
    alone leaves on the grid as given. *)
Theorem solve_agrees_with_brute_force (fuel : nat) (g : grid) :
  well_formed g → (82 ≤ fuel)%nat → (∃ S, completion g S) →
  ∃ g', solve fuel g = Ret (tt, g') ∧ brute_force fuel g = Ret (true, g').
Proof.
  intros Hwfg Hfuel [S0 HS0]. pose proof Hwfg as [Hwf Hrange].
  pose proof (empties_bound g).
  destruct (try_combinations_ok fuel g Hwf Hrange) as (b & g3 & Hrun3 & Hres3);
    [lia|].
  destruct b; [|destruct Hres3 as [_ Hnone]; destruct Hnone; by exists S0].
  pose proof (try_combinations_least fuel g Hwf Hrange ltac:(lia) g3 Hrun3)
    as Hleast3.
  destruct (solve_runs fuel g Hwfg Hfuel)
    as (n & g1 & g2 & _ & Hpasses & _ & Hsolve & Hres).
  pose proof (passes_wf g g1 Hpasses Hwf) as Hwf1.
  pose proof (passes_range g g1 Hpasses Hrange) as Hrange1.
  pose proof (empties_bound g1).
  assert (extends g g1) as Hext1 by (intros p _ Hfilled; by apply passes_keep).
  exists g2. split; [done|]. unfold brute_force. rewrite Hrun3. do 2 f_equal.
  pose proof (passes_sound g g1 g3 Hpasses Hres3) as [[Hwf3 _] Hext3].
  destruct Hres as [[Hvalid ->]|(_ & b & Hrun2 & Hres2)].
  - apply grid_ext; [done..|]. intros p Hp. apply Hext3; [done|].
    by apply solution_full.
  - destruct b.
    2:{ destruct Hres2 as [_ Hnone]. destruct Hnone. exists S0.
        by apply (passes_sound g g1). }
    pose proof (try_combinations_least fuel g1 Hwf1 Hrange1 ltac:(lia) g2 Hrun2)
      as Hleast2.
    destruct Hres2 as [Hsol2 Hext2].
    apply vals_cells_inj; [done|by destruct Hsol2|].
    apply lex_le_antisym; [by rewrite !length_vals| |].
    + apply Hleast3. split; [done|]. by eapply extends_trans_back.
    + apply Hleast2. split; [|done]. by destruct Hres3.
Qed.

Lemma solve_agrees_with_brute_force_witness :
  well_formed zs ∧ (82 ≤ 82)%nat ∧ (∃ S, completion zs S) ∧
  ∃ g', solve 82 zs = Ret (tt, g') ∧ brute_force 82 zs = Ret (true, g').
Proof.
  assert (well_formed zs) as Hwf by by_decide.
  assert (82 ≤ 82)%nat as Hfuel by lia.
  assert (∃ S, completion zs S) as HS by (exists zs_solved; by_decide).
  split; [exact Hwf|]. split; [exact Hfuel|]. split; [exact HS|].
  exact (solve_agrees_with_brute_force 82 zs Hwf Hfuel HS).
Defined.

(** * Grids that are too small *)








(** * The [outputs] flag *)



(** * Legal digits on a grid of any shape *)




(** * The first empty cell *)





